(** * Folder Audit & Report Tool: a shallow embedding of [folder_auditV3.py]

    The development follows the Python module function by function:
    [scan_folder], [find_duplicates] and [print_summary], together with the
    pieces of the Python standard library they call ([str.lower],
    [os.path.splitext], [os.path.join], [round], [sum], [sorted] and
    [statistics.median]).

    Modelling conventions.
    - A Python [str] is a [string]; [str.lower] acts on the ASCII letters.
    - A Python [float] is a rational [Q]: every finite float is a rational,
      and the arithmetic is taken exact.  Halving is exact on floats as
      well, and so is the division of a byte count below 2^53 by 1024.  A
      sum of floats, a quotient by a count and [round(x, 2)] are rounded to
      the nearest float by the Python code and are exact here: statements
      below speak of order, of bounds met by the rounding as well, and of
      the values the code's own operations take, not of identities that
      hold in exact arithmetic only.
    - A [dict] is a [gmap]; [defaultdict(list)] reads a missing key as [[]].
    - An exception is a value of [exn], carried by [result]. *)

From Stdlib Require Import Ascii String QArith Qround Qabs Lqa.
From Stdlib Require Import DecimalString DecimalN DecimalZ.
From stdpp Require Import gmap strings list fin_maps sorting.

Local Open Scope Z_scope.

(** ** Exceptions *)

Inductive exn : Type :=
  | PermissionError
  | FileNotFoundError
  | OSError
  | OverflowError
  | IndexError
  | StatisticsError (msg : string)
  | ValueError (msg : string).

Inductive result (A : Type) : Type :=
  | Ok (a : A)
  | Raise (e : exn).
Arguments Ok {A} a.
Arguments Raise {A} e.

#[global] Instance exn_eq_dec : EqDecision exn.
Proof. solve_decision. Defined.

#[global] Instance result_eq_dec {A : Type} `{EqDecision A}
  : EqDecision (result A).
Proof. solve_decision. Defined.

Definition bind {A B : Type} (m : result A) (k : A → result B) : result B :=
  match m with
  | Ok a => k a
  | Raise e => Raise e
  end.

Notation "x ←! m ; k" := (bind m (fun x => k))
  (at level 100, m at next level, right associativity,
   format "x  ←!  m ;  '/' k").

(** ** Strings *)

Module Str.

(** [c.lower()] on one character: the letters [A]..[Z] move to [a]..[z]. *)
Definition ascii_lower (c : ascii) : ascii :=
  let n := N_of_ascii c in
  if ((65 <=? n) && (n <=? 90))%N then ascii_of_N (n + 32) else c.

(** [s.lower()] *)
Fixpoint lower (s : string) : string :=
  match s with
  | EmptyString => EmptyString
  | String c s' => String (ascii_lower c) (lower s')
  end.

Fixpoint rfind_from (c : ascii) (s : string) (i best : Z) : Z :=
  match s with
  | EmptyString => best
  | String a s' => rfind_from c s' (i + 1) (if Ascii.eqb a c then i else best)
  end.

(** [s.rfind(c)]: the highest index of [c] in [s], or [-1]. *)
Definition rfind (c : ascii) (s : string) : Z := rfind_from c s 0 (-1).

(** [s[:n]] and [s[n:]] for [0 <= n]. *)
Fixpoint take (n : nat) (s : string) : string :=
  match n, s with
  | S n', String a s' => String a (take n' s')
  | _, _ => EmptyString
  end.

Fixpoint drop (n : nat) (s : string) : string :=
  match n, s with
  | S n', String _ s' => drop n' s'
  | _, _ => s
  end.

(** [s[i:i+1] != c]; the empty slice past the end differs from [c]. *)
Definition differs_at (s : string) (i : nat) (c : ascii) : bool :=
  match String.get i s with
  | Some a => negb (Ascii.eqb a c)
  | None => true
  end.

Fixpoint elem (c : ascii) (s : string) : bool :=
  match s with
  | EmptyString => false
  | String a s' => Ascii.eqb a c || elem c s'
  end.

Fixpoint all_eq (c : ascii) (s : string) : bool :=
  match s with
  | EmptyString => true
  | String a s' => Ascii.eqb a c && all_eq c s'
  end.

Definition starts_with (c : ascii) (s : string) : bool :=
  match s with
  | String a _ => Ascii.eqb a c
  | EmptyString => false
  end.

Fixpoint ends_with (c : ascii) (s : string) : bool :=
  match s with
  | EmptyString => false
  | String a EmptyString => Ascii.eqb a c
  | String _ s' => ends_with c s'
  end.

End Str.

(** ** [os.path] (the POSIX flavour) *)

Module OsPath.

Definition sep : ascii := "/"%char.
Definition extsep : ascii := "."%char.

(** The [while filenameIndex < dotIndex] loop of [genericpath._splitext]:
    [n] is the number of iterations left, [dotIndex - filenameIndex].
    It answers [true] when the loop returns from inside (a character
    other than the dot was met), [false] when it runs to its end. *)
Fixpoint skip_leading_dots (p : string) (filenameIndex n : nat) : bool :=
  match n with
  | O => false
  | S n' =>
      if Str.differs_at p filenameIndex extsep then true
      else skip_leading_dots p (S filenameIndex) n'
  end.

(** [os.path.splitext(p)] *)
Definition splitext (p : string) : string * string :=
  let sepIndex := Str.rfind sep p in
  let dotIndex := Str.rfind extsep p in
  if (sepIndex <? dotIndex) &&
     skip_leading_dots p (Z.to_nat (sepIndex + 1))
                         (Z.to_nat (dotIndex - (sepIndex + 1)))
  then (Str.take (Z.to_nat dotIndex) p, Str.drop (Z.to_nat dotIndex) p)
  else (p, EmptyString).

(** [os.path.join(a, b)] for two components. *)
Definition join (a b : string) : string :=
  if Str.starts_with sep b then b
  else if (String.length a =? 0)%nat || Str.ends_with sep a then a +:+ b
  else a +:+ String sep b.

End OsPath.

(** ** Numbers *)

Module Num.

Local Open Scope Q_scope.

(** [round(x)]: the nearest integer, a tie going to the even one. *)
Definition round (x : Q) : Z :=
  let f := Qfloor x in
  match Qcompare (x - inject_Z f) (1 # 2) with
  | Lt => f
  | Gt => (f + 1)%Z
  | Eq => if Z.even f then f else (f + 1)%Z
  end.

(** [round(x, ndigits)] for [0 <= ndigits]. *)
Definition round_ndigits (x : Q) (ndigits : nat) : Q :=
  let scale := inject_Z (10 ^ Z.of_nat ndigits) in
  inject_Z (round (x * scale)) / scale.

(** [x < y] *)
Definition ltb (x y : Q) : bool := negb (Qle_bool y x).

(** [sum(xs)]: the additions run from the left, starting at [0]. *)
Definition sum (xs : list Q) : Q := fold_left Qplus xs 0.

End Num.

(** ** The module *)

Definition DATE_FORMAT : string := "%Y-%m-%d %H:%M:%S".

(** The two module-level tunables.  The functions below read them from a
    [Globals] value, so that a statement can range over every setting. *)
Record Globals : Type := {
  MIN_SIZE_KB : Q;
  RECURSIVE : bool
}.

Definition module_globals : Globals :=
  {| MIN_SIZE_KB := 10; RECURSIVE := true |}.

(** What the scan asks of the operating system.
    - [walk top] is the sequence of triples [(root, dirs, files)] produced by
      [os.walk(top)];
    - [getsize] and [getmtime] are [os.path.getsize] and [os.path.getmtime];
    - [strftime ts fmt] is [datetime.fromtimestamp(ts).strftime(fmt)]. *)
Record FileSystem : Type := {
  walk : string → list (string * list string * list string);
  getsize : string → result N;
  getmtime : string → result Q;
  strftime : Q → string → result string
}.

(** The dictionary built for each file. *)
Record FileRecord : Type := {
  filename : string;
  full_path : string;
  extension : string;
  size_kb : Q;
  last_modified : string
}.

(** *** [scan_folder] *)

Section Scan.

Variable g : Globals.
Variable fs : FileSystem.

(** The body of the [try] block; [None] stands for its [continue]. *)
Definition try_block (filename full_path extension : string)
  : result (option FileRecord) :=
  size_bytes ←! getsize fs full_path;
  let size_kb :=
    Num.round_ndigits (inject_Z (Z.of_N size_bytes) / 1024)%Q 2 in
  if Num.ltb size_kb (MIN_SIZE_KB g) then Ok None
  else
    modified_ts ←! getmtime fs full_path;
    last_modified ←! strftime fs modified_ts DATE_FORMAT;
    Ok (Some {| filename := filename;
                full_path := full_path;
                extension := extension;
                size_kb := size_kb;
                last_modified := last_modified |}).

(** [except (PermissionError, FileNotFoundError)] *)
Definition except_clause (e : exn) : bool :=
  match e with
  | PermissionError | FileNotFoundError => true
  | _ => false
  end.

(** [for filename in files: ...] *)
Fixpoint scan_files (root : string) (files : list string)
    (records : list FileRecord) : result (list FileRecord) :=
  match files with
  | [] => Ok records
  | filename :: files' =>
      let full_path := OsPath.join root filename in
      let extension := Str.lower (OsPath.splitext filename).2 in
      match try_block filename full_path extension with
      | Ok (Some record) => scan_files root files' (records ++ [record])
      | Ok None => scan_files root files' records
      | Raise e =>
          if except_clause e then scan_files root files' records
          else Raise e
      end
  end.

(** [for root, dirs, files in os.walk(folder_path): ...] *)
Fixpoint scan_walk (folder_path : string)
    (triples : list (string * list string * list string))
    (records : list FileRecord) : result (list FileRecord) :=
  match triples with
  | [] => Ok records
  | (root, dirs, files) :: triples' =>
      if negb (RECURSIVE g) && negb (String.eqb root folder_path)
      then scan_walk folder_path triples' records
      else
        records' ←! scan_files root files records;
        scan_walk folder_path triples' records'
  end.

Definition scan_folder (folder_path : string) : result (list FileRecord) :=
  scan_walk folder_path (walk fs folder_path) [].

End Scan.

(** *** [find_duplicates] *)

(** A group key: the pair built in size mode, or the string of name mode. *)
Definition key : Type := (Z * string) + string.

(** The [if mode == ... elif ... else raise] chain of the loop body. *)
Definition group_key (mode : string) (r : FileRecord) : result key :=
  if String.eqb mode "size" then
    Ok (inl (Num.round (size_kb r / 2)%Q, Str.lower (extension r)))
  else if String.eqb mode "name" then
    Ok (inr (Str.lower (filename r)))
  else Raise (ValueError "Mode must be either 'size' or 'name'").

(** [groups[key].append(r)] on a [defaultdict(list)] *)
Definition append_to (groups : gmap key (list FileRecord)) (k : key)
    (r : FileRecord) : gmap key (list FileRecord) :=
  <[k := default [] (groups !! k) ++ [r]]> groups.

(** [for r in records: ...] *)
Fixpoint group_loop (mode : string) (records : list FileRecord)
    (groups : gmap key (list FileRecord))
    : result (gmap key (list FileRecord)) :=
  match records with
  | [] => Ok groups
  | r :: records' =>
      k ←! group_key mode r;
      group_loop mode records' (append_to groups k r)
  end.

Definition find_duplicates (records : list FileRecord) (mode : string)
    : result (gmap key (list FileRecord)) :=
  groups ←! group_loop mode records ∅;
  Ok (filter (λ kv, 1 < length kv.2)%nat groups).

(** *** [print_summary] *)

#[global] Instance Qle_dec : RelDecision Qle.
Proof.
  intros x y. destruct (Qlt_le_dec y x) as [H | H].
  - right. apply Qlt_not_le, H.
  - left. exact H.
Defined.

#[global] Instance Qlt_dec : RelDecision Qlt.
Proof.
  intros x y. destruct (Qlt_le_dec x y) as [H | H].
  - left. exact H.
  - right. apply Qle_not_lt, H.
Defined.

#[global] Instance Qle_total : Total Qle.
Proof.
  intros x y. destruct (Qlt_le_dec x y) as [H | H];
    [left; by apply Qlt_le_weak | by right].
Qed.

#[global] Instance Qle_transitive : Transitive Qle.
Proof. intros x y z. apply Qle_trans. Qed.

Module Statistics.

(** [data[i]] on a list *)
Definition getitem (data : list Q) (i : nat) : result Q :=
  match data !! i with
  | Some x => Ok x
  | None => Raise IndexError
  end.

(** [sorted(data)] *)
Definition sorted (data : list Q) : list Q := merge_sort Qle data.

(** [statistics.median(data)] *)
Definition median (data : list Q) : result Q :=
  let data := sorted data in
  let n := length data in
  if (n =? 0)%nat then Raise (StatisticsError "no median for empty data")
  else if (n mod 2 =? 1)%nat then getitem data (n / 2)
  else
    let i := (n / 2)%nat in
    a ←! getitem data (i - 1);
    b ←! getitem data i;
    Ok ((a + b) / 2)%Q.

End Statistics.

(** The four numbers [print_summary] computes and then prints. *)
Record Summary : Type := {
  total_files : nat;
  total_size_kb : Q;
  average_size_kb : Q;
  median_size_kb : Q
}.

Definition print_summary (records : list FileRecord) : result Summary :=
  let total_files := length records in
  let total_size_kb := Num.sum (map size_kb records) in
  let size_values :=
    map size_kb (List.filter (λ r, Num.ltb 0 (size_kb r)) records) in
  median_size_kb ←!
    (if negb (length size_values =? 0)%nat then Statistics.median size_values
     else Ok 0%Q);
  let average_size_kb :=
    if (0 <? total_files)%nat
    then (total_size_kb / inject_Z (Z.of_nat total_files))%Q
    else 0%Q in
  Ok {| total_files := total_files;
        total_size_kb := total_size_kb;
        average_size_kb := average_size_kb;
        median_size_kb := median_size_kb |}.

(** ** Specification-side definitions *)

(** The extension in the words of the specification: the text after the
    last ['.'] of the file name, lower-cased, and empty when no ['.'] stands
    after the leading position. *)
Fixpoint text_after_last_dot (s : string) : option string :=
  match s with
  | EmptyString => None
  | String c s' =>
      match text_after_last_dot s' with
      | Some t => Some t
      | None => if Ascii.eqb c "." then Some s' else None
      end
  end.

Definition spec_extension (filename : string) : string :=
  match filename with
  | EmptyString => EmptyString
  | String _ rest =>
      match text_after_last_dot rest with
      | Some t => Str.lower t
      | None => EmptyString
      end
  end.

(** The extension in the words of the data model: the same text with its
    separator in front, or empty. *)
Definition spec_extension_with_separator (filename : string) : string :=
  match filename with
  | EmptyString => EmptyString
  | String _ rest =>
      match text_after_last_dot rest with
      | Some t => String "." (Str.lower t)
      | None => EmptyString
      end
  end.

(** [n] is the integer nearest to [x], and the even one of the two when [x]
    lies half way between two integers. *)
Definition nearest_even (x : Q) (n : Z) : Prop :=
  (Qabs (x - inject_Z n) < 1 # 2)%Q ∨
  ((Qabs (x - inject_Z n) == 1 # 2)%Q ∧ Z.even n = true).

(** A file that has vanished, or that may not be read, when it is looked
    at: the call that fails raises one of the two exceptions, and it is
    [getsize], or [getmtime] after [getsize] has answered. *)
Definition vanished_or_denied {A : Type} (r : result A) : Prop :=
  r = Raise PermissionError ∨ r = Raise FileNotFoundError.

Definition Inaccessible (fs : FileSystem) (path : string) : Prop :=
  vanished_or_denied (getsize fs path) ∨
  ((∃ n, getsize fs path = Ok n) ∧ vanished_or_denied (getmtime fs path)).

(** The record [scan_folder] builds for [filename] under [root] has its
    size computed from the byte count the file system reports. *)
Definition size_of_bytes (size_bytes : N) : Q :=
  Num.round_ndigits (inject_Z (Z.of_N size_bytes) / 1024)%Q 2.

(** Order statistics, without reference to any sorting: [x] has rank [i] in
    [data] when at most [i] values lie strictly below it and more than [i]
    values lie at or below it. *)
Definition count_lt (x : Q) (data : list Q) : nat :=
  length (filter (λ y, (y < x)%Q) data).

Definition count_le (x : Q) (data : list Q) : nat :=
  length (filter (λ y, (y <= x)%Q) data).

Definition order_statistic (data : list Q) (i : nat) (x : Q) : Prop :=
  (count_lt x data ≤ i)%nat ∧ (i < count_le x data)%nat.

(** The statistical median: the middle order statistic of an odd number of
    values, the mean of the two middle ones of an even number. *)
Definition statistical_median (data : list Q) (m : Q) : Prop :=
  let n := length data in
  (0 < n)%nat ∧
  ((n mod 2 = 1)%nat →
     ∃ x, order_statistic data (n / 2) x ∧ (m == x)%Q) ∧
  ((n mod 2 = 0)%nat →
     ∃ a b, order_statistic data (n / 2 - 1) a ∧
            order_statistic data (n / 2) b ∧ (m == (a + b) / 2)%Q).

(** The sum of a sequence of numbers. *)
Fixpoint total (xs : list Q) : Q :=
  match xs with
  | [] => 0%Q
  | x :: xs' => (x + total xs')%Q
  end.

(** The members of the group of key [k]: the records whose key is [k], in
    the order of the input. *)
Definition members (mode : string) (k : key) (records : list FileRecord)
    : list FileRecord :=
  filter (λ r, group_key mode r = Ok k) records.

(** Records of the examples. *)
Definition example_record (name ext : string) (size : Q) (dir : string)
    : FileRecord :=
  {| filename := name;
     full_path := OsPath.join dir name;
     extension := ext;
     size_kb := size;
     last_modified := "2024-01-01 00:00:00" |}.

Definition example_records : list FileRecord :=
  [example_record "Report.PDF" ".pdf" 11 "/a";
   example_record "notes.txt" ".txt" 12 "/a";
   example_record "report.pdf" ".pdf" (25 # 2) "/b";
   example_record "report.pdf.bak" ".bak" 30 "/b"].

Definition example_fs : FileSystem :=
  {| walk := λ top,
       [(top, ["sub"], ["small.txt"; "Big.BIN"; "gone.log"; ".profile"]);
        (OsPath.join top "sub", [], ["x.tar.GZ"; "locked.db"])];
     getsize := λ p,
       if String.eqb p "/r/small.txt" then Ok 5120%N
       else if String.eqb p "/r/gone.log" then Raise FileNotFoundError
       else Ok 20480%N;
     getmtime := λ p,
       if String.eqb p "/r/sub/locked.db" then Raise PermissionError
       else Ok 0%Q;
     strftime := λ _ _, Ok "1970-01-01 00:00:00" |}.

(** A folder with a name that starts with two dots. *)
Definition example_fs_dotfiles : FileSystem :=
  {| walk := λ top, [(top, [], ["..bashrc"; "Big.BIN"])];
     getsize := λ _, Ok 20480%N;
     getmtime := λ _, Ok 0%Q;
     strftime := λ _ _, Ok "1970-01-01 00:00:00" |}.

(** ** Further specification-side definitions *)

(** The paths of the files of a walk, in the order of the walk. *)
Definition walk_paths (triples : list (string * list string * list string))
    : list string :=
  concat (map (λ t, map (OsPath.join t.1.1) t.2) triples).

(** Looking at the file [path] ends in the exception [e]: [getsize] raises
    it, or the size passes the threshold and [getmtime], or the formatting
    of the time, raises it. *)
Definition fails_with (g : Globals) (fs : FileSystem) (path : string)
    (e : exn) : Prop :=
  getsize fs path = Raise e ∨
  ∃ n, getsize fs path = Ok n ∧
       Num.ltb (size_of_bytes n) (MIN_SIZE_KB g) = false ∧
       (getmtime fs path = Raise e ∨
        ∃ ts, getmtime fs path = Ok ts ∧
              strftime fs ts DATE_FORMAT = Raise e).

(** The module's tunables with the recursion switched off. *)
Definition top_level_globals : Globals :=
  {| MIN_SIZE_KB := 10; RECURSIVE := false |}.

(** The example tree with a file whose size cannot be read for a reason
    other than the two the scan tolerates. *)
Definition example_fs_io_error : FileSystem :=
  {| walk := walk example_fs;
     getsize := λ p,
       if String.eqb p "/r/sub/x.tar.GZ" then Raise OSError
       else getsize example_fs p;
     getmtime := getmtime example_fs;
     strftime := strftime example_fs |}.

(** *** [print_extensions_breakdown] *)

(** [r["extension"].lower() if r["extension"] else "(no extension)"] *)
Definition extension_label (r : FileRecord) : string :=
  match extension r with
  | EmptyString => "(no extension)"
  | _ => Str.lower (extension r)
  end.

(** [for r in records: ...], on the two [defaultdict]s. *)
Fixpoint breakdown_loop (records : list FileRecord)
    (extension_counts : gmap string nat) (extension_sizes : gmap string Q)
    : gmap string nat * gmap string Q :=
  match records with
  | [] => (extension_counts, extension_sizes)
  | r :: records' =>
      let ext := extension_label r in
      breakdown_loop records'
        (<[ext := (default 0 (extension_counts !! ext) + 1)%nat]>
           extension_counts)
        (<[ext := (default 0 (extension_sizes !! ext) + size_kb r)%Q]>
           extension_sizes)
  end.

(** The rows [print_extensions_breakdown] prints after its two heading
    lines, one for each [ext] of [sorted(extension_counts)]: the label, the
    count and the size in MB that go into the formatted line. *)
Definition print_extensions_breakdown (records : list FileRecord)
    : list (string * nat * Q) :=
  let '(extension_counts, extension_sizes) := breakdown_loop records ∅ ∅ in
  map (λ ext,
         let count := default 0%nat (extension_counts !! ext) in
         let size_mb := (default 0 (extension_sizes !! ext) / 1024)%Q in
         (ext, count, size_mb))
      (merge_sort String.le (map fst (map_to_list extension_counts))).

(** The records that fall under a label, in the order of the input. *)
Definition labelled (ext : string) (records : list FileRecord)
    : list FileRecord :=
  filter (λ r, extension_label r = ext) records.

(** ** Text: numbers, [repr] and the [csv] writer *)

Module Fmt.

(** [str(n)] for an [int]. *)
Definition str_N (n : N) : string := NilEmpty.string_of_uint (N.to_uint n).

Definition str_Z (z : Z) : string := NilEmpty.string_of_int (Z.to_int z).

Fixpoint repeat_char (n : nat) (c : ascii) : string :=
  match n with
  | O => EmptyString
  | S n' => String c (repeat_char n' c)
  end.

(** [s.rjust(width, fill)] and [s.ljust(width, fill)] *)
Definition rjust (width : nat) (fill : ascii) (s : string) : string :=
  repeat_char (width - String.length s) fill +:+ s.

Definition ljust (width : nat) (fill : ascii) (s : string) : string :=
  s +:+ repeat_char (width - String.length s) fill.

(** [format(x, ".<precision>f")]: the sign, the digits before the point
    and [precision] digits after it, of [x] rounded at that digit, a tie
    going to the even digit. *)
Definition format_f (precision : nat) (x : Q) : string :=
  let scale := Z.to_N (10 ^ Z.of_nat precision) in
  let scaled := Z.to_N (Num.round (Qabs x * inject_Z (Z.of_N scale))%Q) in
  let sign := if Num.ltb x 0 then "-" else EmptyString in
  let whole := str_N (scaled / scale) in
  let digits := rjust precision "0" (str_N (scaled mod scale)) in
  sign +:+ whole +:+
  (if (precision =? 0)%nat then EmptyString else String "." digits).

Fixpoint concat (parts : list string) : string :=
  match parts with
  | [] => EmptyString
  | s :: parts' => s +:+ concat parts'
  end.

End Fmt.

(** [repr] of a [str], and [str] of a group key. *)
Module Repr.

Definition backslash : ascii := "\"%char.
Definition apostrophe : ascii := "'"%char.
Definition double_quote : ascii := "034"%char.

(** One digit of a two-digit lower-case hexadecimal escape. *)
Definition hex_digit (n : N) : ascii :=
  if (n <? 10)%N then ascii_of_N (48 + n) else ascii_of_N (87 + n).

Definition hex_escape (c : ascii) : string :=
  let n := N_of_ascii c in
  String backslash
    (String "x" (String (hex_digit (n / 16)) (String (hex_digit (n mod 16))
       EmptyString))).

(** The characters of the first 256 code points that [repr] writes as they
    are: the printable ASCII ones and, above them, all but the C1 controls,
    the no-break space and the soft hyphen. *)
Definition printable (c : ascii) : bool :=
  let n := N_of_ascii c in
  ((32 <=? n) && (n <? 127) || (161 <=? n) && negb (n =? 173))%N.

Definition repr_char (quote c : ascii) : string :=
  let n := N_of_ascii c in
  if Ascii.eqb c quote || Ascii.eqb c backslash then
    String backslash (String c EmptyString)
  else if (n =? 9)%N then String backslash "t"
  else if (n =? 10)%N then String backslash "n"
  else if (n =? 13)%N then String backslash "r"
  else if printable c then String c EmptyString
  else hex_escape c.

Fixpoint repr_chars (quote : ascii) (s : string) : string :=
  match s with
  | EmptyString => EmptyString
  | String c s' => repr_char quote c +:+ repr_chars quote s'
  end.

(** [repr(s)]: in apostrophes, or in double quotes when [s] holds an
    apostrophe and no double quote. *)
Definition repr_str (s : string) : string :=
  let quote :=
    if Str.elem apostrophe s && negb (Str.elem double_quote s)
    then double_quote else apostrophe in
  String quote (repr_chars quote s +:+ String quote EmptyString).

(** [str(key)]: a name-mode key is the string itself, a size-mode key the
    text of the pair. *)
Definition str_key (k : key) : string :=
  match k with
  | inl (n, ext) =>
      "(" +:+ Fmt.str_Z n +:+ ", " +:+ repr_str ext +:+ ")"
  | inr name => name
  end.

End Repr.

(** [csv.writer] with the default dialect ([excel]): delimiter [,], quote
    character the double quote, doubled inside a field, minimal quoting,
    lines ended by CR LF. *)
Module Csv.

Definition delimiter : ascii := ","%char.
Definition quotechar : ascii := "034"%char.
Definition CR : ascii := "013"%char.
Definition LF : ascii := "010"%char.
Definition lineterminator : string := String CR (String LF EmptyString).

(** The characters that make the writer quote a field. *)
Definition special (c : ascii) : bool :=
  Ascii.eqb c delimiter || Ascii.eqb c quotechar || Str.elem c lineterminator.

Fixpoint needs_quotes (field : string) : bool :=
  match field with
  | EmptyString => false
  | String c field' => special c || needs_quotes field'
  end.

(** The characters of a field as they are copied: a quote character comes
    out twice. *)
Fixpoint double_quotes (field : string) : string :=
  match field with
  | EmptyString => EmptyString
  | String c field' =>
      if Ascii.eqb c quotechar
      then String quotechar (String c (double_quotes field'))
      else String c (double_quotes field')
  end.

Definition write_field (field : string) : string :=
  if needs_quotes field
  then String quotechar (double_quotes field +:+ String quotechar EmptyString)
  else double_quotes field.

Fixpoint join (fields : list string) : string :=
  match fields with
  | [] => EmptyString
  | [field] => field
  | field :: fields' => field +:+ String delimiter (join fields')
  end.

(** [writer.writerow(row)] for a row of strings: the text of the line. A
    row of one empty field is written as two quote characters. *)
Definition writerow (row : list string) : string :=
  let record := join (map write_field row) in
  let record :=
    if (0 <? length row)%nat && (String.length record =? 0)%nat
    then String quotechar (String quotechar EmptyString)
    else record in
  record +:+ lineterminator.

End Csv.

(** *** [write_csv] and [write_duplicates_csv] *)

(** The fields of the row of a record. *)
Definition record_row (r : FileRecord) : list string :=
  [filename r; full_path r; extension r; Fmt.format_f 2 (size_kb r);
   last_modified r].

(** The text [write_csv(records, output_csv)] writes to the file. *)
Definition write_csv (records : list FileRecord) : string :=
  Csv.writerow
    ["Filename"; "Full Path"; "Extension"; "Size (KB)"; "Last Modified"]
  +:+ Fmt.concat (map (λ r, Csv.writerow (record_row r)) records).

(** The text [write_duplicates_csv(duplicates, output_csv)] writes to the
    file; [duplicates] is given by its items, in the order of the
    dictionary. *)
Definition write_duplicates_csv (duplicates : list (key * list FileRecord))
    : string :=
  Csv.writerow
    ["Duplicate Group"; "Filename"; "Full_Path"; "Extension"; "Size (KB)";
     "Last Modified"]
  +:+ Fmt.concat
        (map (λ item,
                Fmt.concat
                  (map (λ r, Csv.writerow (Repr.str_key item.1 :: record_row r))
                       item.2))
             duplicates).

(** *** Reading back what the writer wrote *)

(** A reader for the texts of [Csv.writerow]: it is the left inverse used to
    show that the writer loses nothing.  It follows the text character by
    character, with the field and the row read so far. *)
Module CsvRead.

Inductive state : Type :=
  | StartRecord
  | StartField
  | InField
  | InQuoted
  | QuoteInQuoted
  | AfterCR.

Record config : Type := {
  st : state;
  field : string;
  row : list string;
  rows : list (list string)
}.

Definition push (c : ascii) (s : string) : string :=
  s +:+ String c EmptyString.

Definition start_field (row : list string) (rows : list (list string))
    (c : ascii) : option config :=
  if Ascii.eqb c Csv.quotechar then
    Some {| st := InQuoted; field := EmptyString; row := row; rows := rows |}
  else if Ascii.eqb c Csv.delimiter then
    Some {| st := StartField; field := EmptyString;
            row := row ++ [EmptyString]; rows := rows |}
  else if Ascii.eqb c Csv.CR then
    Some {| st := AfterCR; field := EmptyString;
            row := row ++ [EmptyString]; rows := rows |}
  else if Ascii.eqb c Csv.LF then None
  else
    Some {| st := InField; field := String c EmptyString; row := row;
            rows := rows |}.

Definition step (cfg : config) (c : ascii) : option config :=
  match st cfg with
  | StartRecord =>
      if Ascii.eqb c Csv.CR then
        Some {| st := AfterCR; field := EmptyString; row := [];
                rows := rows cfg |}
      else start_field [] (rows cfg) c
  | StartField => start_field (row cfg) (rows cfg) c
  | InField =>
      if Ascii.eqb c Csv.delimiter then
        Some {| st := StartField; field := EmptyString;
                row := row cfg ++ [field cfg]; rows := rows cfg |}
      else if Ascii.eqb c Csv.CR then
        Some {| st := AfterCR; field := EmptyString;
                row := row cfg ++ [field cfg]; rows := rows cfg |}
      else if Ascii.eqb c Csv.quotechar || Ascii.eqb c Csv.LF then None
      else
        Some {| st := InField; field := push c (field cfg); row := row cfg;
                rows := rows cfg |}
  | InQuoted =>
      if Ascii.eqb c Csv.quotechar then
        Some {| st := QuoteInQuoted; field := field cfg; row := row cfg;
                rows := rows cfg |}
      else
        Some {| st := InQuoted; field := push c (field cfg); row := row cfg;
                rows := rows cfg |}
  | QuoteInQuoted =>
      if Ascii.eqb c Csv.quotechar then
        Some {| st := InQuoted; field := push c (field cfg); row := row cfg;
                rows := rows cfg |}
      else if Ascii.eqb c Csv.delimiter then
        Some {| st := StartField; field := EmptyString;
                row := row cfg ++ [field cfg]; rows := rows cfg |}
      else if Ascii.eqb c Csv.CR then
        Some {| st := AfterCR; field := EmptyString;
                row := row cfg ++ [field cfg]; rows := rows cfg |}
      else None
  | AfterCR =>
      if Ascii.eqb c Csv.LF then
        Some {| st := StartRecord; field := EmptyString; row := [];
                rows := rows cfg ++ [row cfg] |}
      else None
  end.

Fixpoint run (cfg : config) (text : string) : option (list (list string)) :=
  match text with
  | EmptyString =>
      match st cfg with
      | StartRecord => Some (rows cfg)
      | _ => None
      end
  | String c text' =>
      match step cfg c with
      | Some cfg' => run cfg' text'
      | None => None
      end
  end.

Definition start (rows : list (list string)) : config :=
  {| st := StartRecord; field := EmptyString; row := []; rows := rows |}.

Definition read (text : string) : option (list (list string)) :=
  run (start []) text.

End CsvRead.

(** The rows of the two reports, as lists of fields. *)
Definition csv_header : list string :=
  ["Filename"; "Full Path"; "Extension"; "Size (KB)"; "Last Modified"].

Definition duplicates_header : list string :=
  ["Duplicate Group"; "Filename"; "Full_Path"; "Extension"; "Size (KB)";
   "Last Modified"].

Definition duplicates_rows (duplicates : list (key * list FileRecord))
    : list (list string) :=
  mjoin (map (λ item, map (λ r, Repr.str_key item.1 :: record_row r) item.2)
             duplicates).

(** *** [find_duplicates], with the order of the dictionary *)

(** A [dict] keeps its keys in the order in which they were first inserted.
    Here the dictionary is the list of its items in that order;
    [append_item] is [groups[key].append(r)] on a [defaultdict(list)]. *)
Fixpoint append_item (items : list (key * list FileRecord)) (k : key)
    (r : FileRecord) : list (key * list FileRecord) :=
  match items with
  | [] => [(k, [r])]
  | (k', files) :: items' =>
      if decide (k' = k) then (k', files ++ [r]) :: items'
      else (k', files) :: append_item items' k r
  end.

(** [for r in records: ...] *)
Fixpoint group_items_loop (mode : string) (records : list FileRecord)
    (items : list (key * list FileRecord))
    : result (list (key * list FileRecord)) :=
  match records with
  | [] => Ok items
  | r :: records' =>
      k ←! group_key mode r;
      group_items_loop mode records' (append_item items k r)
  end.

(** [find_duplicates(records, mode)], the items of the returned dictionary
    in its order: the comprehension keeps the order of [groups]. *)
Definition find_duplicates_items (records : list FileRecord) (mode : string)
    : result (list (key * list FileRecord)) :=
  groups ←! group_items_loop mode records [];
  Ok (filter (λ kv, 1 < length kv.2)%nat groups).

(** The keys of a sequence, each one at the place where it comes first. *)
Fixpoint first_occurrences (ks : list key) : list key :=
  match ks with
  | [] => []
  | k :: ks' => k :: filter (λ k', k' ≠ k) (first_occurrences ks')
  end.

(** ** The program: what it prints and what it writes *)

(** The part of the world [main] acts on: the text printed so far and the
    content of the files, by path.  Printing and writing a file are taken to
    succeed. *)
Record World : Type := {
  stdout : string;
  files : gmap string string
}.

(** A command runs in a world and ends in a world, with a value or with an
    exception; what was printed and written before an exception stays. *)
Definition IO (A : Type) : Type := World → result A * World.

Definition io_bind {A B : Type} (m : IO A) (k : A → IO B) : IO B :=
  λ w, match m w with
       | (Ok a, w') => k a w'
       | (Raise e, w') => (Raise e, w')
       end.

Notation "x ←$ m ; k" := (io_bind m (fun x => k))
  (at level 100, m at next level, right associativity,
   format "x  ←$  m ;  '/' k").

(** A computation that touches neither the output nor the files. *)
Definition lift {A : Type} (r : result A) : IO A := λ w, (r, w).

Definition newline : string := String Csv.LF EmptyString.

(** [print(s)] *)
Definition print (s : string) : IO unit :=
  λ w, (Ok tt, {| stdout := stdout w +:+ s +:+ newline; files := files w |}).

(** [with open(path, mode="w", newline="", encoding="utf-8") as csvfile],
    the text written through [csvfile] being [text]: the file is created or
    replaced. *)
Definition write_file (path text : string) : IO unit :=
  λ w, (Ok tt, {| stdout := stdout w; files := <[path := text]> (files w) |}).

(** [for x in xs: body(x)] *)
Fixpoint for_each {A : Type} (xs : list A) (body : A → IO unit) : IO unit :=
  match xs with
  | [] => λ w, (Ok tt, w)
  | x :: xs' => _ ←$ body x; for_each xs' body
  end.

(** [str(n)] for the length of a list. *)
Definition str_nat (n : nat) : string := Fmt.str_N (N.of_nat n).

(** [print_summary(records)], with its output: the numbers are computed
    first, then the six lines are printed. *)
Definition print_summary_io (records : list FileRecord) : IO unit :=
  s ←$ lift (print_summary records);
  _ ←$ print (newline +:+ "Summary:");
  _ ←$ print "-------";
  _ ←$ print ("Files included: " +:+ str_nat (total_files s));
  _ ←$ print ("Total size: " +:+ Fmt.format_f 2 (total_size_kb s) +:+ " KB");
  _ ←$ print ("Average file size: " +:+ Fmt.format_f 2 (average_size_kb s)
              +:+ " KB");
  print ("Median file size: " +:+ Fmt.format_f 2 (median_size_kb s)
         +:+ " KB").

(** [f"{ext:10} | {count:4} files | {size_mb:8.2f} MB"] *)
Definition breakdown_line (row : string * nat * Q) : string :=
  let '(ext, count, size_mb) := row in
  Fmt.ljust 10 " " ext +:+ " | " +:+ Fmt.rjust 4 " " (str_nat count)
  +:+ " files | " +:+ Fmt.rjust 8 " " (Fmt.format_f 2 size_mb) +:+ " MB".

(** [print_extensions_breakdown(records)], with its output. *)
Definition print_extensions_breakdown_io (records : list FileRecord)
    : IO unit :=
  let rows := print_extensions_breakdown records in
  _ ←$ print (newline +:+ "File type breakdown:");
  _ ←$ print "---------------------";
  for_each rows (λ row, print (breakdown_line row)).

(** [print_duplicates(duplicates, mode)]; the message for no duplicates is
    not an f-string, the braces are printed as they are. *)
Definition print_duplicates (duplicates : list (key * list FileRecord))
    (mode : string) : IO unit :=
  match duplicates with
  | [] => print "No duplicates found by {mode}."
  | _ =>
      _ ←$ print ("Duplicate files by " +:+ mode +:+ ":");
      _ ←$ print (Fmt.repeat_char 40 "-");
      for_each duplicates (λ item,
        _ ←$ print (newline +:+ "Match: " +:+ Repr.str_key item.1 +:+ "(");
        for_each item.2 (λ f,
          print ("  - " +:+ full_path f +:+ " ("
                 +:+ Fmt.rjust 2 " " (Fmt.format_f 6 (size_kb f))
                 +:+ " KB")))
  end.

(** [write_duplicates_csv(duplicates, output_csv)] on the files. *)
Definition write_duplicates_csv_io
    (duplicates : list (key * list FileRecord)) (output_csv : string)
    : IO unit :=
  write_file output_csv (write_duplicates_csv duplicates).

Definition folder_to_scan : string := "C:\Insert_Folder_Path_Here".

Definition main (g : Globals) (fs : FileSystem) : IO unit :=
  let output_csv := "folder_audit.csv" in
  _ ←$ print "Starting folder audit...";
  records ←$ lift (scan_folder g fs folder_to_scan);
  _ ←$ print_summary_io records;
  _ ←$ print_extensions_breakdown_io records;
  dupes_by_size ←$ lift (find_duplicates_items records "size");
  _ ←$ print_duplicates dupes_by_size "name + size + extension";
  _ ←$ write_duplicates_csv_io dupes_by_size "duplicates by size.csv";
  dupes_by_name ←$ lift (find_duplicates_items records "name");
  _ ←$ print_duplicates dupes_by_name "name + size + extension";
  _ ←$ write_duplicates_csv_io dupes_by_name "duplicates by name.csv";
  _ ←$ print "Scan complete.";
  _ ←$ print ("Files found: " +:+ str_nat (length records));
  print ("CSV written to: " +:+ output_csv).

(** A command that returns in every world: it adds some text ending in
    [suffix] to the output and changes the files by [f]. *)
Definition acts (m : IO unit) (f : gmap string string → gmap string string)
    (suffix : string) : Prop :=
  ∀ w, ∃ text,
    m w = (Ok tt, {| stdout := stdout w +:+ text +:+ suffix;
                     files := f (files w) |}).

Definition empty_world : World := {| stdout := EmptyString; files := ∅ |}.

(** ** Strings and [os.path.splitext] *)

Section StringFacts.

Implicit Types (s p stem suf : string) (c a : ascii).

Lemma str_app_nil s : EmptyString +:+ s = s.
Proof. reflexivity. Qed.

Lemma str_app_cons a s1 s2 : String a s1 +:+ s2 = String a (s1 +:+ s2).
Proof. reflexivity. Qed.

Lemma str_app_assoc s1 s2 s3 : (s1 +:+ s2) +:+ s3 = s1 +:+ (s2 +:+ s3).
Proof.
  induction s1 as [| a s1 IH]; [done |].
  by rewrite !str_app_cons, IH.
Qed.

Lemma str_length_app s1 s2 :
  String.length (s1 +:+ s2) = (String.length s1 + String.length s2)%nat.
Proof.
  induction s1 as [| a s1 IH]; [done |].
  rewrite str_app_cons. simpl. by rewrite IH.
Qed.

Lemma str_get_app_length pre a s :
  String.get (String.length pre) (pre +:+ String a s) = Some a.
Proof.
  induction pre as [| b pre IH]; [done |].
  rewrite str_app_cons. simpl. exact IH.
Qed.

Lemma rfind_from_absent c s :
  Str.elem c s = false → ∀ i best, Str.rfind_from c s i best = best.
Proof.
  induction s as [| a s IH]; simpl; [done |].
  intros [Ha Hs]%orb_false_iff i best. rewrite Ha. by apply IH.
Qed.

Lemma rfind_from_last c stem suf :
  Str.elem c suf = false →
  ∀ i best, Str.rfind_from c (stem +:+ String c suf) i best
            = i + Z.of_nat (String.length stem).
Proof.
  intros Hsuf. induction stem as [| a stem IH]; intros i best.
  - rewrite str_app_nil. simpl.
    rewrite Ascii.eqb_refl, rfind_from_absent by done. simpl. lia.
  - rewrite str_app_cons. simpl. rewrite IH. simpl String.length. lia.
Qed.

Lemma rfind_from_lower_bound c s :
  ∀ i best, -1 ≤ best → 0 ≤ i → -1 ≤ Str.rfind_from c s i best.
Proof.
  induction s as [| a s IH]; simpl; intros i best Hb Hi; [done |].
  apply IH; [| lia]. destruct (Ascii.eqb a c); lia.
Qed.

Lemma elem_app c s1 s2 :
  Str.elem c (s1 +:+ s2) = Str.elem c s1 || Str.elem c s2.
Proof.
  induction s1 as [| a s1 IH]; [done |].
  rewrite str_app_cons. simpl. by rewrite IH, orb_assoc.
Qed.

Lemma drop_app stem s : Str.drop (String.length stem) (stem +:+ s) = s.
Proof.
  induction stem as [| a stem IH]; [by destruct s |].
  rewrite str_app_cons. simpl. exact IH.
Qed.

Lemma skip_leading_dots_app stem s :
  ∀ pre, OsPath.skip_leading_dots (pre +:+ stem +:+ s)
           (String.length pre) (String.length stem)
         = negb (Str.all_eq OsPath.extsep stem).
Proof.
  induction stem as [| a stem IH]; intros pre; [done |].
  rewrite str_app_cons. simpl. unfold Str.differs_at.
  rewrite str_get_app_length.
  destruct (Ascii.eqb a OsPath.extsep) eqn:Ha; simpl; [| done].
  specialize (IH (pre +:+ String a EmptyString)).
  rewrite str_length_app, str_app_assoc, str_app_cons, str_app_nil in IH.
  simpl in IH. rewrite Nat.add_1_r in IH. exact IH.
Qed.

Lemma lower_app s1 s2 : Str.lower (s1 +:+ s2) = Str.lower s1 +:+ Str.lower s2.
Proof.
  induction s1 as [| a s1 IH]; [done |].
  rewrite !str_app_cons. simpl. by rewrite IH.
Qed.

(** The second component of [splitext] on a name with no separator. *)
Lemma splitext_ext_dot stem suf :
  Str.elem OsPath.sep (stem +:+ String OsPath.extsep suf) = false →
  Str.elem OsPath.extsep suf = false →
  (OsPath.splitext (stem +:+ String OsPath.extsep suf)).2
  = if Str.all_eq OsPath.extsep stem then EmptyString
    else String OsPath.extsep suf.
Proof.
  intros Hsep Hsuf. unfold OsPath.splitext, Str.rfind.
  rewrite (rfind_from_absent _ _ Hsep), (rfind_from_last _ _ _ Hsuf).
  change (-1 + 1) with 0. rewrite Z.sub_0_r, Z.add_0_l, Nat2Z.id.
  pose proof (skip_leading_dots_app stem (String OsPath.extsep suf)
                EmptyString) as Hskip.
  rewrite str_app_nil in Hskip. simpl String.length in Hskip.
  change (Z.to_nat 0) with 0%nat. rewrite Hskip.
  replace (-1 <? Z.of_nat (String.length stem)) with true
    by (symmetry; apply Z.ltb_lt; lia).
  destruct (Str.all_eq OsPath.extsep stem); simpl; [done |].
  apply drop_app.
Qed.

Lemma splitext_ext_no_dot p :
  Str.elem OsPath.extsep p = false → (OsPath.splitext p).2 = EmptyString.
Proof.
  intros Hp. unfold OsPath.splitext, Str.rfind.
  rewrite (rfind_from_absent _ _ Hp).
  pose proof (rfind_from_lower_bound OsPath.sep p 0 (-1)) as Hlb.
  replace (Str.rfind_from OsPath.sep p 0 (-1) <? -1) with false
    by (symmetry; apply Z.ltb_ge; lia).
  done.
Qed.

End StringFacts.

(** ** The scan *)

Lemma ltb_false_le (x y : Q) : Num.ltb x y = false → (y <= x)%Q.
Proof.
  unfold Num.ltb. intros H%negb_false_iff. by apply Qle_bool_iff.
Qed.

Lemma ltb_true_lt (x y : Q) : Num.ltb x y = true → (x < y)%Q.
Proof.
  unfold Num.ltb. intros H%negb_true_iff.
  apply Qnot_le_lt. intros Hle%Qle_bool_iff. congruence.
Qed.

Section ScanFacts.

Variable g : Globals.
Variable fs : FileSystem.

(** What a record that leaves the [try] block is made of. *)
Lemma try_block_Some fn fp ext r :
  try_block g fs fn fp ext = Ok (Some r) →
  ∃ n ts lm,
    getsize fs fp = Ok n ∧
    Num.ltb (size_of_bytes n) (MIN_SIZE_KB g) = false ∧
    getmtime fs fp = Ok ts ∧
    strftime fs ts DATE_FORMAT = Ok lm ∧
    r = {| filename := fn; full_path := fp; extension := ext;
           size_kb := size_of_bytes n; last_modified := lm |}.
Proof.
  unfold try_block, size_of_bytes.
  destruct (getsize fs fp) as [n | e] eqn:Hsize; simpl; [| done].
  destruct (Num.ltb _ (MIN_SIZE_KB g)) eqn:Hlt; [done |].
  destruct (getmtime fs fp) as [ts | e] eqn:Hmtime; simpl; [| done].
  destruct (strftime fs ts DATE_FORMAT) as [lm | e] eqn:Hfmt; simpl;
    [| done].
  intros [= <-]. by exists n, ts, lm.
Qed.

(** A file that cannot be read leaves the [try] block through its
    [continue] or through an exception the [except] clause catches. *)
Lemma try_block_inaccessible fn fp ext :
  Inaccessible fs fp →
  try_block g fs fn fp ext = Ok None ∨
  ∃ e, try_block g fs fn fp ext = Raise e ∧ except_clause e = true.
Proof.
  unfold try_block.
  intros [[H | H] | [[n Hn] [H | H]]].
  - right. exists PermissionError. by rewrite H.
  - right. exists FileNotFoundError. by rewrite H.
  - rewrite Hn. simpl. destruct (Num.ltb _ _); [by left |].
    right. exists PermissionError. by rewrite H.
  - rewrite Hn. simpl. destruct (Num.ltb _ _); [by left |].
    right. exists FileNotFoundError. by rewrite H.
Qed.

Section Invariant.

Variable P : FileRecord → Prop.
Hypothesis P_try_block :
  ∀ root fn r,
    try_block g fs fn (OsPath.join root fn)
      (Str.lower (OsPath.splitext fn).2) = Ok (Some r) → P r.

Lemma scan_files_Forall root files :
  ∀ records recs,
    Forall P records →
    scan_files g fs root files records = Ok recs → Forall P recs.
Proof using P_try_block.
  induction files as [| fn files IH]; simpl; intros records recs HP.
  - by intros [= <-].
  - destruct (try_block _ _ _ _ _) as [[r |] | e] eqn:Htry.
    + apply IH. apply Forall_app. split; [done |].
      apply Forall_singleton. by eapply P_try_block.
    + by apply IH.
    + destruct (except_clause e); [by apply IH | done].
Qed.

Lemma scan_walk_Forall top triples :
  ∀ records recs,
    Forall P records →
    scan_walk g fs top triples records = Ok recs → Forall P recs.
Proof using P_try_block.
  induction triples as [| [[root dirs] files] triples IH]; simpl;
    intros records recs HP.
  - by intros [= <-].
  - destruct (negb (RECURSIVE g) && negb (root =? top)%string);
      [by apply IH |].
    destruct (scan_files g fs root files records) as [records' | e]
      eqn:Hfiles; simpl; [| done].
    apply IH. by eapply scan_files_Forall.
Qed.

Lemma scan_folder_Forall top recs :
  scan_folder g fs top = Ok recs → Forall P recs.
Proof using P_try_block.
  unfold scan_folder. by apply scan_walk_Forall.
Qed.

End Invariant.

(** Dropping a file that cannot be read changes nothing. *)
Lemma scan_files_skip root bad post :
  Inaccessible fs (OsPath.join root bad) →
  ∀ pre records,
    scan_files g fs root (pre ++ bad :: post) records
    = scan_files g fs root (pre ++ post) records.
Proof.
  intros Hbad. induction pre as [| fn pre IH]; simpl; intros records.
  - destruct (try_block_inaccessible bad (OsPath.join root bad)
                (Str.lower (OsPath.splitext bad).2) Hbad)
      as [-> | [e [-> ->]]]; done.
  - destruct (try_block _ _ _ _ _) as [[r |] | e]; [by rewrite IH ..|].
    destruct (except_clause e); [by rewrite IH | done].
Qed.

Lemma scan_walk_skip top root dirs pre bad post t2 :
  Inaccessible fs (OsPath.join root bad) →
  ∀ t1 records,
    scan_walk g fs top (t1 ++ (root, dirs, pre ++ bad :: post) :: t2) records
    = scan_walk g fs top (t1 ++ (root, dirs, pre ++ post) :: t2) records.
Proof.
  intros Hbad. induction t1 as [| [[root' dirs'] files'] t1 IH]; simpl;
    intros records.
  - by rewrite scan_files_skip.
  - destruct (negb (RECURSIVE g) && negb (root' =? top)%string);
      [by rewrite IH |].
    destruct (scan_files g fs root' files' records); simpl; [| done].
    by rewrite IH.
Qed.

(** Exceptions other than the two the [except] clause names are the only
    ones that leave the scan. *)
Lemma scan_files_returns root files :
  (∀ fn e, fn ∈ files →
     try_block g fs fn (OsPath.join root fn)
       (Str.lower (OsPath.splitext fn).2) = Raise e →
     except_clause e = true) →
  ∀ records, ∃ recs, scan_files g fs root files records = Ok recs.
Proof.
  induction files as [| fn files IH]; simpl; intros Hexn records.
  - by eexists.
  - assert (∀ fn' e, fn' ∈ files →
              try_block g fs fn' (OsPath.join root fn')
                (Str.lower (OsPath.splitext fn').2) = Raise e →
              except_clause e = true) as Hexn'.
    { intros fn' e Hin. apply Hexn. by right. }
    destruct (try_block _ _ _ _ _) as [[r |] | e] eqn:Htry;
      [by apply IH ..|].
    rewrite (Hexn fn e); [by apply IH | by left | done].
Qed.

Lemma scan_walk_returns top triples :
  (∀ root dirs files fn e,
     (root, dirs, files) ∈ triples → fn ∈ files →
     try_block g fs fn (OsPath.join root fn)
       (Str.lower (OsPath.splitext fn).2) = Raise e →
     except_clause e = true) →
  ∀ records, ∃ recs, scan_walk g fs top triples records = Ok recs.
Proof.
  induction triples as [| [[root dirs] files] triples IH]; simpl;
    intros Hexn records.
  - by eexists.
  - assert (∀ root' dirs' files' fn e,
              (root', dirs', files') ∈ triples → fn ∈ files' →
              try_block g fs fn (OsPath.join root' fn)
                (Str.lower (OsPath.splitext fn).2) = Raise e →
              except_clause e = true) as Hexn'.
    { intros root' dirs' files' fn e Hin. apply (Hexn root' dirs'). by right. }
    destruct (negb (RECURSIVE g) && negb (root =? top)%string);
      [by apply IH |].
    destruct (scan_files_returns root files) with (records := records)
      as [records' ->].
    { intros fn e Hin. apply (Hexn root dirs files); [by left | done]. }
    simpl. by apply IH.
Qed.

End ScanFacts.

(** C1.  Every record [scan_folder] returns has [size_kb] at or above the
    threshold [MIN_SIZE_KB], whatever the folder and the threshold; the
    [size_kb] of a record is the rounded size of the file the record
    names, so that a file whose rounded size lies below the threshold is
    the source of no record. *)
Theorem scan_folder_min_size (g : Globals) (fs : FileSystem)
    (folder_path : string) (records : list FileRecord) :
  scan_folder g fs folder_path = Ok records →
  Forall (λ r, (MIN_SIZE_KB g <= size_kb r)%Q ∧
               ∃ size_bytes, getsize fs (full_path r) = Ok size_bytes ∧
                             size_kb r = size_of_bytes size_bytes ∧
                             ¬ (size_of_bytes size_bytes < MIN_SIZE_KB g)%Q)
         records.
Proof.
  apply scan_folder_Forall.
  intros root fn r (n & ts & lm & Hsize & Hlt & _ & _ & ->)%try_block_Some.
  simpl. apply ltb_false_le in Hlt. split; [done |].
  exists n. repeat split; [done |]. by apply Qle_not_lt.
Qed.

Lemma scan_folder_min_size_witness :
  ∃ records,
    scan_folder module_globals example_fs "/r" = Ok records ∧
    length records = 3%nat ∧
    Forall (λ r, (10 <= size_kb r)%Q ∧
                 ∃ size_bytes,
                   getsize example_fs (full_path r) = Ok size_bytes ∧
                   size_kb r = size_of_bytes size_bytes ∧
                   ¬ (size_of_bytes size_bytes < 10)%Q)
           records.
Proof.
  eexists. split; [vm_compute; reflexivity |]. split; [reflexivity |].
  apply (scan_folder_min_size module_globals example_fs "/r").
  vm_compute. reflexivity.
Defined.

(** C7, as amended.  For a file name without path separator met during a
    scan, the extension stored in the record is the end of the name from
    its last ['.'] on, that ['.'] included, lower-cased, when a character
    other than ['.'] stands before that ['.']; it is empty when only ['.']
    characters (or none) stand before it, and when the name has no ['.']. *)
Theorem scan_folder_extension (g : Globals) (fs : FileSystem)
    (folder_path : string) (records : list FileRecord) (r : FileRecord) :
  scan_folder g fs folder_path = Ok records →
  r ∈ records →
  Str.elem "/" (filename r) = false →
  (∀ stem suf,
     filename r = stem +:+ String "." suf →
     Str.elem "." suf = false →
     extension r = if Str.all_eq "." stem then EmptyString
                   else String "." (Str.lower suf)) ∧
  (Str.elem "." (filename r) = false → extension r = EmptyString).
Proof.
  intros Hscan Hin.
  assert (extension r = Str.lower (OsPath.splitext (filename r)).2) as ->.
  { revert r Hin. apply Forall_forall. revert Hscan.
    apply scan_folder_Forall.
    by intros root fn r (n & ts & lm & _ & _ & _ & _ & ->)%try_block_Some. }
  intros Hsep. split.
  - intros stem suf Hname Hsuf. rewrite Hname in Hsep |- *.
    pose proof (splitext_ext_dot stem suf Hsep Hsuf) as Hext.
    unfold OsPath.extsep in Hext. rewrite Hext.
    by destruct (Str.all_eq "." stem).
  - intros Hdot. by rewrite splitext_ext_no_dot.
Qed.

Lemma scan_folder_extension_witness :
  (∀ stem suf,
     "Big.BIN" = stem +:+ String "." suf →
     Str.elem "." suf = false →
     ".bin" = if Str.all_eq "." stem then EmptyString
              else String "." (Str.lower suf)) ∧
  (Str.elem "." "Big.BIN" = false → ".bin" = EmptyString).
Proof.
  apply (scan_folder_extension module_globals example_fs "/r"
           (match scan_folder module_globals example_fs "/r" with
            | Ok records => records
            | Raise _ => []
            end)
           {| filename := "Big.BIN"; full_path := "/r/Big.BIN";
              extension := ".bin"; size_kb := size_of_bytes 20480;
              last_modified := "1970-01-01 00:00:00" |}).
  - vm_compute. reflexivity.
  - vm_compute. left.
  - reflexivity.
Defined.

(** C7, as stated, fails on a name that starts with more than one ['.']:
    [..bashrc] has a ['.'] after the leading position, so the extension of
    the claim is the text after it, [bashrc], or [.bashrc] with the
    separator in front; the record carries the empty extension, since
    [os.path.splitext] takes no extension from a name whose last ['.'] has
    only ['.'] characters before it. *)
Lemma scan_folder_extension_counterexample :
  ∃ records r,
    scan_folder module_globals example_fs_dotfiles "/r" = Ok records ∧
    r ∈ records ∧
    filename r = "..bashrc" ∧
    extension r = EmptyString ∧
    spec_extension (filename r) = "bashrc" ∧
    spec_extension_with_separator (filename r) = ".bashrc" ∧
    extension r ≠ spec_extension (filename r) ∧
    extension r ≠ spec_extension_with_separator (filename r).
Proof.
  eexists.
  exists {| filename := "..bashrc"; full_path := "/r/..bashrc";
            extension := EmptyString; size_kb := size_of_bytes 20480;
            last_modified := "1970-01-01 00:00:00" |}.
  split; [vm_compute; reflexivity |].
  split; [left |]. simpl. by repeat split.
Qed.

(** ** Grouping *)

Lemma group_key_size r :
  group_key "size" r
  = Ok (inl (Num.round (size_kb r / 2)%Q, Str.lower (extension r))).
Proof. reflexivity. Qed.

Lemma group_key_name r :
  group_key "name" r = Ok (inr (Str.lower (filename r))).
Proof. reflexivity. Qed.

Lemma group_key_valid mode r :
  mode = "size" ∨ mode = "name" → ∃ k, group_key mode r = Ok k.
Proof. intros [-> | ->]; by eexists. Qed.

Lemma group_key_invalid mode r :
  mode ≠ "size" → mode ≠ "name" →
  group_key mode r = Raise (ValueError "Mode must be either 'size' or 'name'").
Proof.
  intros Hsize Hname. unfold group_key.
  apply String.eqb_neq in Hsize, Hname. by rewrite Hsize, Hname.
Qed.

Lemma members_cons mode k r records :
  members mode k (r :: records)
  = if decide (group_key mode r = Ok k) then r :: members mode k records
    else members mode k records.
Proof. unfold members. by rewrite filter_cons. Qed.

Lemma lookup_append_to (groups : gmap key (list FileRecord)) k0 r k :
  default [] (append_to groups k0 r !! k)
  = if decide (k0 = k) then default [] (groups !! k) ++ [r]
    else default [] (groups !! k).
Proof.
  unfold append_to. rewrite lookup_insert.
  destruct (decide (k0 = k)) as [-> | Hne]; done.
Qed.

(** After the loop, the list under each key is what was there before,
    followed by the records of that key in the order they were met. *)
Lemma group_loop_lookup mode records :
  (∀ r, ∃ k, group_key mode r = Ok k) →
  ∀ groups : gmap key (list FileRecord),
    ∃ groups',
      group_loop mode records groups = Ok groups' ∧
      ∀ k, default [] (groups' !! k)
           = default [] (groups !! k) ++ members mode k records.
Proof.
  intros Hvalid. induction records as [| r records IH]; intros groups.
  - exists groups. split; [done |]. intros k. by rewrite app_nil_r.
  - simpl. destruct (Hvalid r) as [k0 Hk0]. rewrite Hk0. simpl.
    destruct (IH (append_to groups k0 r)) as (groups' & Hloop & Hlookup).
    exists groups'. split; [done |]. intros k.
    rewrite Hlookup, lookup_append_to, members_cons, Hk0.
    destruct (decide (k0 = k)) as [-> | Hne].
    + rewrite decide_True by done. by rewrite <- app_assoc.
    + rewrite decide_False by congruence. done.
Qed.

(** The returned dictionary, key by key. *)
Lemma find_duplicates_lookup mode records :
  mode = "size" ∨ mode = "name" →
  ∃ res,
    find_duplicates records mode = Ok res ∧
    ∀ k v, res !! k = Some v ↔
           v = members mode k records ∧ (1 < length v)%nat.
Proof.
  intros Hmode. unfold find_duplicates.
  destruct (group_loop_lookup mode records
              (λ r, group_key_valid mode r Hmode) ∅)
    as (groups & -> & Hlookup).
  simpl. eexists. split; [done |]. intros k v.
  rewrite map_lookup_filter_Some. simpl.
  specialize (Hlookup k). rewrite lookup_empty in Hlookup. simpl in Hlookup.
  split.
  - intros [Hk Hlen]. rewrite Hk in Hlookup. simpl in Hlookup. by subst.
  - intros [-> Hlen]. split; [| done].
    destruct (groups !! k) as [v |]; simpl in Hlookup.
    + by rewrite Hlookup.
    + rewrite <- Hlookup in Hlen. simpl in Hlen. lia.
Qed.

Lemma members_sublist mode k records : sublist (members mode k records) records.
Proof. apply sublist_filter. Qed.

Lemma members_elem_of mode k records r :
  r ∈ members mode k records ↔ group_key mode r = Ok k ∧ r ∈ records.
Proof. unfold members. by rewrite list_elem_of_filter. Qed.

(** Two positions of a list that pass a filter leave at least two
    elements. *)
Lemma filter_two_length {A} (P : A → Prop) `{∀ x, Decision (P x)}
    (l : list A) :
  ∀ i j x y,
    i ≠ j → l !! i = Some x → l !! j = Some y → P x → P y →
    (1 < length (filter P l))%nat.
Proof.
  induction l as [| a l IH]; intros i j x y Hij Hi Hj Hx Hy; [done |].
  rewrite filter_cons.
  destruct i as [| i], j as [| j]; simplify_eq/=.
  - rewrite decide_True by done. simpl.
    assert (y ∈ filter P l) as Hin.
    { rewrite list_elem_of_filter. split; [done |].
      by eapply list_elem_of_lookup_2. }
    destruct (filter P l); [by apply elem_of_nil in Hin | simpl; lia].
  - rewrite decide_True by done. simpl.
    assert (x ∈ filter P l) as Hin.
    { rewrite list_elem_of_filter. split; [done |].
      by eapply list_elem_of_lookup_2. }
    destruct (filter P l); [by apply elem_of_nil in Hin | simpl; lia].
  - assert (1 < length (filter P l))%nat as Hlen
      by (eapply (IH i j); eauto).
    destruct (decide (P a)); simpl; lia.
Qed.

(** The lists of a dictionary whose entries are the members of their keys
    use each element of the input at most once, all together. *)
Lemma groups_concat_submseteq mode :
  ∀ (res : gmap key (list FileRecord)) records,
    (∀ k v, res !! k = Some v → v = members mode k records) →
    concat (map snd (map_to_list res)) ⊆+ records.
Proof.
  intros res. induction res as [| k v res Hk IH] using map_ind;
    intros records Hres.
  - rewrite map_to_list_empty. simpl. apply submseteq_nil_l.
  - rewrite map_to_list_insert by done. simpl.
    set (rest := filter (λ r, ¬ group_key mode r = Ok k) records).
    assert (v = members mode k records) as Hv.
    { apply Hres. by rewrite lookup_insert_eq. }
    assert (concat (map snd (map_to_list res)) ⊆+ rest) as Hrest.
    { apply IH. intros k' v' Hk'.
      assert (k' ≠ k) as Hne by (intros ->; congruence).
      rewrite (Hres k' v') by (by rewrite lookup_insert_ne).
      unfold members, rest. symmetry. apply list_filter_filter_l.
      intros r Hr. congruence. }
    rewrite Hv. unfold members.
    rewrite <- (filter_app_complement (λ r, group_key mode r = Ok k) records)
      at 2.
    by apply submseteq_app.
Qed.

(** ** Rounding *)

Lemma round_cases (x : Q) :
  ((x - inject_Z (Qfloor x) < 1 # 2)%Q ∧ Num.round x = Qfloor x) ∨
  ((1 # 2 < x - inject_Z (Qfloor x))%Q ∧ Num.round x = Qfloor x + 1) ∨
  ((x - inject_Z (Qfloor x) == 1 # 2)%Q ∧
   Num.round x = if Z.even (Qfloor x) then Qfloor x else Qfloor x + 1).
Proof.
  unfold Num.round.
  destruct (Qcompare_spec (x - inject_Z (Qfloor x)) (1 # 2)) as [H | H | H].
  - right. right. by split.
  - left. by split.
  - right. left. by split.
Qed.

Lemma round_nearest_even (x : Q) : nearest_even x (Num.round x).
Proof.
  pose proof (Qfloor_le x) as Hlo. pose proof (Qlt_floor x) as Hhi.
  rewrite inject_Z_plus in Hhi. change (inject_Z 1) with 1%Q in Hhi.
  unfold nearest_even.
  destruct (round_cases x) as [[H ->] | [[H ->] | [H ->]]].
  - left. apply Qabs_Qlt_condition. split; lra.
  - left. rewrite inject_Z_plus. change (inject_Z 1) with 1%Q.
    apply Qabs_Qlt_condition. split; lra.
  - right. destruct (Z.even (Qfloor x)) eqn:Heven.
    + split; [| done]. rewrite Qabs_pos by lra. done.
    + split.
      * rewrite inject_Z_plus. change (inject_Z 1) with 1%Q.
        rewrite Qabs_neg by lra. lra.
      * rewrite Z.even_add, Heven. done.
Qed.

Lemma nearest_even_unique (x : Q) (n m : Z) :
  nearest_even x n → nearest_even x m → n = m.
Proof.
  assert (∀ a b : Z, nearest_even x a → nearest_even x b → a ≤ b) as Hle.
  { intros a b Ha Hb.
    assert (Qabs (x - inject_Z a) <= 1 # 2)%Q as Ha'
      by (destruct Ha as [Ha | [Ha _]]; [by apply Qlt_le_weak | by rewrite Ha]).
    assert (Qabs (x - inject_Z b) <= 1 # 2)%Q as Hb'
      by (destruct Hb as [Hb | [Hb _]]; [by apply Qlt_le_weak | by rewrite Hb]).
    apply Qabs_Qle_condition in Ha', Hb'.
    destruct Ha' as [Ha1 Ha2], Hb' as [Hb1 Hb2].
    destruct (Z_le_gt_dec a b) as [| Hgt]; [done | exfalso].
    assert (inject_Z (b + 1) <= inject_Z a)%Q as Hab
      by (rewrite <- Zle_Qle; lia).
    pose proof (inject_Z_plus b 1) as Hplus.
    change (inject_Z 1) with 1%Q in Hplus. rewrite Hplus in Hab.
    assert (inject_Z a == inject_Z (b + 1))%Q as Heq by (rewrite Hplus; lra).
    assert (a = b + 1) as -> by (by apply inject_Z_injective).
    assert (x - inject_Z (b + 1) == - (1 # 2))%Q as Hxa
      by (rewrite Hplus in Ha1 |- *; lra).
    assert (x - inject_Z b == 1 # 2)%Q as Hxb by lra.
    destruct Ha as [Ha | [_ Ha]].
    { rewrite Hxa in Ha. by compute in Ha. }
    destruct Hb as [Hb | [_ Hb]].
    { rewrite Hxb in Hb. by compute in Hb. }
    rewrite Z.even_add, Hb in Ha. done. }
  intros Hn Hm. apply Z.le_antisymm; by apply Hle.
Qed.

Lemma round_eq_iff (x : Q) (n : Z) : Num.round x = n ↔ nearest_even x n.
Proof.
  split.
  - intros <-. apply round_nearest_even.
  - intros Hn. eapply nearest_even_unique; [apply round_nearest_even | done].
Qed.

(** Two records of one key, at two places of the input, share a group. *)
Lemma find_duplicates_together mode records res i j r1 r2 k :
  find_duplicates records mode = Ok res →
  (∀ k v, res !! k = Some v ↔
          v = members mode k records ∧ (1 < length v)%nat) →
  i ≠ j → records !! i = Some r1 → records !! j = Some r2 →
  group_key mode r1 = Ok k → group_key mode r2 = Ok k →
  ∃ v, res !! k = Some v ∧ r1 ∈ v ∧ r2 ∈ v.
Proof.
  intros _ Hres Hij Hi Hj Hk1 Hk2.
  exists (members mode k records). split; [| split].
  - apply Hres. split; [done |]. unfold members.
    by eapply (filter_two_length _ records i j r1 r2).
  - apply members_elem_of. split; [done |]. by eapply list_elem_of_lookup_2.
  - apply members_elem_of. split; [done |]. by eapply list_elem_of_lookup_2.
Qed.

(** C3.  In size mode the key of a record is the pair of [round(size_kb / 2)]
    and the lower-cased extension, where [round] takes the nearest integer
    and the even one at a tie: a group holds exactly the records of the
    input with its key, and two records of one key at two places of the
    input are in one group.  So two records of extension [pdf] and of
    sizes 11.0 and 12.5 are together in the group of key [(6, pdf)], which
    a record of extension [docx] and size 11.0 does not join; and the case
    of the extension does not count: a record of extension [PDF] and size
    11.0 is in the group of key [(6, pdf)] with one of extension [pdf] and
    size 12.5, and no group has the key [(6, PDF)]. *)
Theorem find_duplicates_by_size (records : list FileRecord) :
  ∃ res,
    find_duplicates records "size" = Ok res ∧
    (∀ k v, res !! k = Some v →
       ∃ n e, k = inl (n, e) ∧
         ∀ r, r ∈ v ↔ r ∈ records ∧ nearest_even (size_kb r / 2) n ∧
                       Str.lower (extension r) = e) ∧
    (∀ i j r1 r2 n,
       i ≠ j → records !! i = Some r1 → records !! j = Some r2 →
       nearest_even (size_kb r1 / 2) n → nearest_even (size_kb r2 / 2) n →
       Str.lower (extension r1) = Str.lower (extension r2) →
       ∃ v, res !! inl (n, Str.lower (extension r1)) = Some v ∧
            r1 ∈ v ∧ r2 ∈ v) ∧
    (∀ i j r1 r2 r3,
       i ≠ j → records !! i = Some r1 → records !! j = Some r2 →
       extension r1 = "pdf" → (size_kb r1 == 11)%Q →
       extension r2 = "pdf" → (size_kb r2 == 25 # 2)%Q →
       extension r3 = "docx" → (size_kb r3 == 11)%Q →
       ∃ v, res !! inl (6, "pdf") = Some v ∧ r1 ∈ v ∧ r2 ∈ v ∧ r3 ∉ v) ∧
    (∀ i j r1 r2,
       i ≠ j → records !! i = Some r1 → records !! j = Some r2 →
       extension r1 = "PDF" → (size_kb r1 == 11)%Q →
       extension r2 = "pdf" → (size_kb r2 == 25 # 2)%Q →
       ∃ v, res !! inl (6, "pdf") = Some v ∧ r1 ∈ v ∧ r2 ∈ v ∧
            res !! inl (6, "PDF") = None).
Proof.
  destruct (find_duplicates_lookup "size" records) as (res & Hfind & Hres);
    [by left |].
  assert (∀ i j r1 r2 n,
            i ≠ j → records !! i = Some r1 → records !! j = Some r2 →
            nearest_even (size_kb r1 / 2) n →
            nearest_even (size_kb r2 / 2) n →
            Str.lower (extension r1) = Str.lower (extension r2) →
            ∃ v, res !! inl (n, Str.lower (extension r1)) = Some v ∧
                 r1 ∈ v ∧ r2 ∈ v) as Htogether.
  { intros i j r1 r2 n Hij Hi Hj Hn1 Hn2 Hext.
    apply (find_duplicates_together "size" records res i j); try done.
    - rewrite group_key_size. by apply round_eq_iff in Hn1 as ->.
    - rewrite group_key_size, <- Hext. by apply round_eq_iff in Hn2 as ->. }
  exists res. split; [done |]. split; [| split; [done |]; split].
  - intros k v [-> Hlen]%Hres. destruct k as [[n e] | s].
    + exists n, e. split; [done |]. intros r.
      rewrite members_elem_of, group_key_size. split.
      * intros [[= Hn He] Hin]. by apply round_eq_iff in Hn.
      * intros (Hin & Hn & He). apply round_eq_iff in Hn.
        split; [| done]. by rewrite Hn, He.
    + exfalso.
      destruct (members "size" (inr s) records) as [| r rest] eqn:Hmem;
        [simpl in Hlen; lia |].
      assert (r ∈ members "size" (inr s) records) as Hin
        by (rewrite Hmem; left).
      apply members_elem_of in Hin as [Hkey _].
      by rewrite group_key_size in Hkey.
  - intros i j r1 r2 r3 Hij Hi Hj He1 Hs1 He2 Hs2 He3 Hs3.
    destruct (Htogether i j r1 r2 6 Hij Hi Hj) as (v & Hv & Hin1 & Hin2).
    + right. rewrite Hs1. split; [reflexivity | done].
    + left. rewrite Hs2. reflexivity.
    + by rewrite He1, He2.
    + rewrite He1 in Hv. change (Str.lower "pdf") with "pdf" in Hv.
      exists v. repeat split; try done.
      apply Hres in Hv as [-> _]. rewrite members_elem_of, group_key_size.
      rewrite He3. intros [[= _ ?] _].
  - intros i j r1 r2 Hij Hi Hj He1 Hs1 He2 Hs2.
    destruct (Htogether i j r1 r2 6 Hij Hi Hj) as (v & Hv & Hin1 & Hin2).
    + right. rewrite Hs1. split; [reflexivity | done].
    + left. rewrite Hs2. reflexivity.
    + by rewrite He1, He2.
    + rewrite He1 in Hv. change (Str.lower "PDF") with "pdf" in Hv.
      exists v. repeat split; try done.
      destruct (res !! inl (6, "PDF")) as [v' |] eqn:Hv'; [| done].
      exfalso. apply Hres in Hv' as [-> Hlen].
      destruct (members "size" (inl (6, "PDF")) records) as [| r rest]
        eqn:Hmem; [simpl in Hlen; lia |].
      assert (r ∈ members "size" (inl (6, "PDF")) records) as Hin
        by (rewrite Hmem; left).
      apply members_elem_of in Hin as [Hkey _].
      rewrite group_key_size in Hkey. injection Hkey as _ Hlow.
      destruct (extension r) as [| c e]; [discriminate |].
      cbn [Str.lower] in Hlow. injection Hlow as Hc _. revert Hc.
      destruct c as [[] [] [] [] [] [] [] []]; vm_compute;
        intros Hc; discriminate Hc.
Qed.

(** C4.  In name mode the key of a record is its file name, extension
    included, lower-cased: a group holds exactly the records of the input
    with its key, and two records of one key at two places of the input are
    in one group.  So two records named [Report.PDF] and [report.pdf],
    whatever their directories, are together in the group of key
    [report.pdf], which a record named [report.pdf.bak] does not join. *)
Theorem find_duplicates_by_name (records : list FileRecord) :
  ∃ res,
    find_duplicates records "name" = Ok res ∧
    (∀ k v, res !! k = Some v →
       ∃ s, k = inr s ∧
         ∀ r, r ∈ v ↔ r ∈ records ∧ Str.lower (filename r) = s) ∧
    (∀ i j r1 r2,
       i ≠ j → records !! i = Some r1 → records !! j = Some r2 →
       Str.lower (filename r1) = Str.lower (filename r2) →
       ∃ v, res !! inr (Str.lower (filename r1)) = Some v ∧
            r1 ∈ v ∧ r2 ∈ v) ∧
    (∀ i j r1 r2 r3,
       i ≠ j → records !! i = Some r1 → records !! j = Some r2 →
       filename r1 = "Report.PDF" → filename r2 = "report.pdf" →
       filename r3 = "report.pdf.bak" →
       ∃ v, res !! inr "report.pdf" = Some v ∧ r1 ∈ v ∧ r2 ∈ v ∧ r3 ∉ v).
Proof.
  destruct (find_duplicates_lookup "name" records) as (res & Hfind & Hres);
    [by right |].
  assert (∀ i j r1 r2,
            i ≠ j → records !! i = Some r1 → records !! j = Some r2 →
            Str.lower (filename r1) = Str.lower (filename r2) →
            ∃ v, res !! inr (Str.lower (filename r1)) = Some v ∧
                 r1 ∈ v ∧ r2 ∈ v) as Htogether.
  { intros i j r1 r2 Hij Hi Hj Hname.
    apply (find_duplicates_together "name" records res i j); try done.
    by rewrite group_key_name, Hname. }
  exists res. split; [done |]. split; [| split; [done |]].
  - intros k v [-> Hlen]%Hres. destruct k as [[n e] | s].
    + exfalso.
      destruct (members "name" (inl (n, e)) records) as [| r rest] eqn:Hmem;
        [simpl in Hlen; lia |].
      assert (r ∈ members "name" (inl (n, e)) records) as Hin
        by (rewrite Hmem; left).
      apply members_elem_of in Hin as [Hkey _].
      by rewrite group_key_name in Hkey.
    + exists s. split; [done |]. intros r.
      rewrite members_elem_of, group_key_name. split.
      * by intros [[= Hs] Hin].
      * intros [Hin Hs]. by rewrite Hs.
  - intros i j r1 r2 r3 Hij Hi Hj Hn1 Hn2 Hn3.
    destruct (Htogether i j r1 r2 Hij Hi Hj) as (v & Hv & Hin1 & Hin2).
    + by rewrite Hn1, Hn2.
    + rewrite Hn1 in Hv. change (Str.lower "Report.PDF") with "report.pdf" in Hv.
      exists v. repeat split; try done.
      apply Hres in Hv as [-> _]. rewrite members_elem_of, group_key_name.
      rewrite Hn3. intros [[= ?] _].
Qed.

(** An unrecognized mode is met, and refused, at the first record. *)
Lemma find_duplicates_invalid_mode mode r records :
  mode ≠ "size" → mode ≠ "name" →
  find_duplicates (r :: records) mode
  = Raise (ValueError "Mode must be either 'size' or 'name'").
Proof.
  intros Hsize Hname. unfold find_duplicates. simpl.
  by rewrite group_key_invalid.
Qed.

(** C5, at the input where the code departs from it: with no record to
    group, a mode that is neither [size] nor [name] raises nothing, and the
    empty dictionary is returned. *)
Theorem find_duplicates_invalid_mode_no_records :
  "hash" ≠ "size" ∧ "hash" ≠ "name" ∧
  find_duplicates [] "hash" = Ok ∅ ∧
  ∀ e, find_duplicates [] "hash" ≠ Raise e.
Proof.
  split; [done |]. split; [done |].
  assert (find_duplicates [] "hash" = Ok ∅) as Hfind.
  { unfold find_duplicates, group_loop, bind. by rewrite map_filter_empty. }
  split; [done |]. intros e. by rewrite Hfind.
Qed.

(** C9.  On the empty sequence [find_duplicates] returns the empty
    dictionary for every mode string, recognized or not: the mode is looked
    at in the body of the loop, which does not run. *)
Theorem find_duplicates_no_records (mode : string) :
  find_duplicates [] mode = Ok ∅ ∧ group_loop mode [] ∅ = Ok ∅.
Proof.
  split; [| done].
  unfold find_duplicates, group_loop, bind. by rewrite map_filter_empty.
Qed.

(** C6.  For a recognized mode, the returned dictionary has exactly the
    keys with two members or more, the members of a key being the records
    of the input with that key; the list under a key is the sequence of its
    members in the order of the input. *)
Theorem find_duplicates_keys_and_order (records : list FileRecord)
    (mode : string) :
  mode = "size" ∨ mode = "name" →
  ∃ res,
    find_duplicates records mode = Ok res ∧
    (∀ k, is_Some (res !! k) ↔ (2 ≤ length (members mode k records))%nat) ∧
    (∀ k v, res !! k = Some v →
       v = members mode k records ∧ sublist v records ∧ (2 ≤ length v)%nat).
Proof.
  intros Hmode.
  destruct (find_duplicates_lookup mode records Hmode) as (res & Hfind & Hres).
  exists res. split; [done |]. split.
  - intros k. split.
    + intros [v [-> Hlen]%Hres]. lia.
    + intros Hlen. exists (members mode k records). apply Hres. split; [done | lia].
  - intros k v [-> Hlen]%Hres. split; [done |].
    split; [apply members_sublist | lia].
Qed.

Lemma find_duplicates_keys_and_order_witness :
  ∃ res,
    find_duplicates example_records "name" = Ok res ∧
    (∀ k, is_Some (res !! k)
          ↔ (2 ≤ length (members "name" k example_records))%nat) ∧
    (∀ k v, res !! k = Some v →
       v = members "name" k example_records ∧ sublist v example_records ∧
       (2 ≤ length v)%nat).
Proof.
  apply (find_duplicates_keys_and_order example_records "name").
  right. reflexivity.
Defined.

(** C10.  For a recognized mode, every member of a group has the key of
    the group; a group is a subsequence of the input; no record lies in two
    groups; and the groups taken together use each occurrence of a record
    in the input at most once. *)
Theorem find_duplicates_groups_disjoint (records : list FileRecord)
    (mode : string) :
  mode = "size" ∨ mode = "name" →
  ∃ res,
    find_duplicates records mode = Ok res ∧
    (∀ k v r, res !! k = Some v → r ∈ v → group_key mode r = Ok k) ∧
    (∀ k v, res !! k = Some v → sublist v records) ∧
    (∀ k1 k2 v1 v2 r,
       res !! k1 = Some v1 → res !! k2 = Some v2 →
       r ∈ v1 → r ∈ v2 → k1 = k2) ∧
    concat (map snd (map_to_list res)) ⊆+ records.
Proof.
  intros Hmode.
  destruct (find_duplicates_lookup mode records Hmode) as (res & Hfind & Hres).
  assert (∀ k v r, res !! k = Some v → r ∈ v → group_key mode r = Ok k)
    as Hkey.
  { intros k v r [-> _]%Hres Hin. by apply members_elem_of in Hin as [? _]. }
  exists res. split; [done |]. repeat split.
  - done.
  - intros k v [-> _]%Hres. apply members_sublist.
  - intros k1 k2 v1 v2 r Hv1 Hv2 Hin1 Hin2.
    pose proof (Hkey _ _ _ Hv1 Hin1) as H1.
    pose proof (Hkey _ _ _ Hv2 Hin2) as H2. congruence.
  - apply (groups_concat_submseteq mode). by intros k v [-> _]%Hres.
Qed.

Lemma find_duplicates_groups_disjoint_witness :
  ∃ res,
    find_duplicates example_records "size" = Ok res ∧
    (∀ k v r, res !! k = Some v → r ∈ v → group_key "size" r = Ok k) ∧
    (∀ k v, res !! k = Some v → sublist v example_records) ∧
    (∀ k1 k2 v1 v2 r,
       res !! k1 = Some v1 → res !! k2 = Some v2 →
       r ∈ v1 → r ∈ v2 → k1 = k2) ∧
    concat (map snd (map_to_list res)) ⊆+ example_records.
Proof.
  apply (find_duplicates_groups_disjoint example_records "size").
  left. reflexivity.
Defined.

(** ** The summary *)

Lemma fold_left_Qplus (xs : list Q) :
  ∀ acc, (fold_left Qplus xs acc == acc + total xs)%Q.
Proof.
  induction xs as [| x xs IH]; simpl; intros acc; [lra |].
  rewrite IH. lra.
Qed.

Lemma sum_total (xs : list Q) : (Num.sum xs == total xs)%Q.
Proof. unfold Num.sum. rewrite fold_left_Qplus. lra. Qed.

Lemma count_lt_cons x a data :
  count_lt x (a :: data)
  = if decide (a < x)%Q then S (count_lt x data) else count_lt x data.
Proof. unfold count_lt. rewrite filter_cons. by destruct (decide _). Qed.

Lemma count_le_cons x a data :
  count_le x (a :: data)
  = if decide (a <= x)%Q then S (count_le x data) else count_le x data.
Proof. unfold count_le. rewrite filter_cons. by destruct (decide _). Qed.

Lemma count_lt_bounded_below x data :
  Forall (Qle x) data → count_lt x data = 0%nat.
Proof.
  induction 1 as [| a data Ha _ IH]; [done |].
  rewrite count_lt_cons, decide_False; [done |]. by apply Qle_not_lt.
Qed.

(** In a sorted list the element at place [i] has rank [i]. *)
Lemma sorted_order_statistic (s : list Q) :
  StronglySorted Qle s →
  ∀ i x, s !! i = Some x → order_statistic s i x.
Proof.
  unfold order_statistic.
  induction 1 as [| a s Hs IH Ha]; intros i x Hi; [done |].
  destruct i as [| i]; simplify_eq/=.
  - rewrite count_lt_cons, count_le_cons.
    rewrite decide_False by apply Qlt_irrefl.
    rewrite decide_True by apply Qle_refl.
    rewrite count_lt_bounded_below by done. lia.
  - destruct (IH i x Hi) as [Hlt Hle].
    assert (a <= x)%Q as Hax.
    { eapply Forall_forall in Ha; [done |]. by eapply list_elem_of_lookup_2. }
    rewrite count_lt_cons, count_le_cons.
    rewrite (decide_True _ _ Hax). destruct (decide _); lia.
Qed.

Lemma order_statistic_Permutation (s data : list Q) i x :
  s ≡ₚ data → order_statistic s i x → order_statistic data i x.
Proof.
  unfold order_statistic, count_lt, count_le. by intros ->.
Qed.

(** A rank names one value. *)
Lemma order_statistic_unique (data : list Q) i x y :
  order_statistic data i x → order_statistic data i y → (x == y)%Q.
Proof.
  assert (∀ a b, (a < b)%Q → (count_le a data ≤ count_lt b data)%nat) as Hmono.
  { intros a b Hab. unfold count_le, count_lt.
    induction data as [| c data IH]; [done |].
    rewrite !filter_cons.
    destruct (decide (c <= a)%Q) as [Hca | Hca].
    - rewrite decide_True by lra. simpl. lia.
    - destruct (decide (c < b)%Q); simpl; lia. }
  intros [Hx1 Hx2] [Hy1 Hy2].
  destruct (Q_dec x y) as [[Hlt | Hgt] | Heq]; [| | done].
  - specialize (Hmono x y Hlt). lia.
  - specialize (Hmono y x Hgt). lia.
Qed.

Lemma getitem_Some (data : list Q) i x :
  data !! i = Some x → Statistics.getitem data i = Ok x.
Proof. unfold Statistics.getitem. by intros ->. Qed.

(** [statistics.median] returns the statistical median of a sequence that
    is not empty. *)
Lemma median_statistical (data : list Q) :
  data ≠ [] →
  ∃ m, Statistics.median data = Ok m ∧ statistical_median data m.
Proof.
  intros Hne. unfold Statistics.median, Statistics.sorted.
  pose proof (merge_sort_Permutation Qle data) as Hperm.
  pose proof (StronglySorted_merge_sort Qle data) as Hsorted.
  set (s := merge_sort Qle data) in *.
  assert (length s = length data) as Hlen by (by rewrite Hperm).
  assert (0 < length data)%nat as Hpos
    by (destruct data; [done | simpl; lia]).
  rewrite Hlen.
  replace (length data =? 0)%nat with false
    by (symmetry; apply Nat.eqb_neq; lia).
  pose proof (Nat.div_mod_eq (length data) 2) as Hdiv.
  pose proof (Nat.mod_upper_bound (length data) 2) as Hmod.
  destruct (length data mod 2 =? 1)%nat eqn:Hodd.
  - apply Nat.eqb_eq in Hodd.
    destruct (lookup_lt_is_Some_2 s (length data / 2)) as [x Hx]; [lia |].
    exists x. split; [by apply getitem_Some |].
    split; [done |]. split; [| lia]. intros _. exists x. split; [| done].
    eapply order_statistic_Permutation; [done |].
    by apply sorted_order_statistic.
  - apply Nat.eqb_neq in Hodd.
    destruct (lookup_lt_is_Some_2 s (length data / 2 - 1)) as [a Ha]; [lia |].
    destruct (lookup_lt_is_Some_2 s (length data / 2)) as [b Hb]; [lia |].
    exists ((a + b) / 2)%Q. split.
    { by rewrite (getitem_Some _ _ _ Ha), (getitem_Some _ _ _ Hb). }
    split; [done |]. split; [lia |]. intros _. exists a, b.
    split; [| split; [| done]];
      (eapply order_statistic_Permutation; [done |]);
      by apply sorted_order_statistic.
Qed.

(** The list comprehension of [print_summary] keeps the sizes that are
    strictly positive. *)
Lemma size_values_filter (records : list FileRecord) :
  map size_kb (List.filter (λ r, Num.ltb 0 (size_kb r)) records)
  = filter (λ x, (0 < x)%Q) (map size_kb records).
Proof.
  induction records as [| r records IH]; [done |].
  simpl. rewrite filter_cons.
  destruct (Num.ltb 0 (size_kb r)) eqn:Hlt.
  - apply ltb_true_lt in Hlt. rewrite decide_True by done.
    simpl. by rewrite IH.
  - apply ltb_false_le in Hlt. rewrite decide_False by (by apply Qle_not_lt).
    done.
Qed.

Lemma print_summary_Ok (records : list FileRecord) :
  let size_values := filter (λ x, (0 < x)%Q) (map size_kb records) in
  ∃ m,
    print_summary records
    = Ok {| total_files := length records;
            total_size_kb := Num.sum (map size_kb records);
            average_size_kb :=
              if (0 <? length records)%nat
              then (Num.sum (map size_kb records)
                    / inject_Z (Z.of_nat (length records)))%Q
              else 0%Q;
            median_size_kb := m |} ∧
    (size_values ≠ [] → Statistics.median size_values = Ok m) ∧
    (size_values = [] → m = 0%Q).
Proof.
  intros size_values. unfold print_summary.
  rewrite size_values_filter. fold size_values.
  destruct size_values as [| x size_values'] eqn:Hsv.
  - exists 0%Q. simpl. by repeat split.
  - destruct (median_statistical (x :: size_values')) as (m & Hm & _); [done |].
    exists m. change (negb (length (x :: size_values') =? 0)%nat) with true.
    cbv iota. rewrite Hm. simpl. by repeat split.
Qed.

(** C2.  [print_summary] raises nothing and reports: the number of records;
    the sum of their sizes; the quotient of the two, or 0 when there is no
    record; the statistical median of the sizes strictly above 0, or 0 when
    there is none.  A record of size 0 counts as a file, and adds its size
    to the total, but leaves the median as it is without that record. *)
Theorem print_summary_statistics (records : list FileRecord) :
  ∃ s,
    print_summary records = Ok s ∧
    total_files s = length records ∧
    (total_size_kb s == total (map size_kb records))%Q ∧
    ((0 < total_files s)%nat →
       (average_size_kb s
        == total_size_kb s / inject_Z (Z.of_nat (total_files s)))%Q) ∧
    (total_files s = 0%nat → (average_size_kb s == 0)%Q) ∧
    (filter (λ x, (0 < x)%Q) (map size_kb records) ≠ [] →
       statistical_median (filter (λ x, (0 < x)%Q) (map size_kb records))
         (median_size_kb s)) ∧
    (filter (λ x, (0 < x)%Q) (map size_kb records) = [] →
       (median_size_kb s == 0)%Q) ∧
    (∀ pre z post,
       records = pre ++ z :: post → (size_kb z == 0)%Q →
       ∃ s',
         print_summary (pre ++ post) = Ok s' ∧
         median_size_kb s = median_size_kb s' ∧
         total_files s = S (total_files s') ∧
         (total_size_kb s == total_size_kb s' + size_kb z)%Q).
Proof.
  destruct (print_summary_Ok records) as (m & Hsum & Hmed & Hzero).
  eexists. split; [exact Hsum |]. simpl.
  split; [done |]. split; [apply sum_total |].
  split; [| split; [| split; [| split]]].
  - intros Hpos. apply Nat.ltb_lt in Hpos. by rewrite Hpos.
  - intros ->. done.
  - intros Hne.
    destruct (median_statistical _ Hne) as (m' & Hm' & Hstat).
    rewrite (Hmed Hne) in Hm'. by injection Hm' as ->.
  - intros Hnil. by rewrite (Hzero Hnil).
  - intros pre z post -> Hz.
    destruct (print_summary_Ok (pre ++ post)) as (m' & Hsum' & Hmed' & Hzero').
    eexists. split; [exact Hsum' |]. simpl.
    assert (filter (λ x, (0 < x)%Q) (map size_kb (pre ++ z :: post))
            = filter (λ x, (0 < x)%Q) (map size_kb (pre ++ post))) as Hsame.
    { rewrite !map_app, !filter_app. simpl. rewrite filter_cons.
      rewrite decide_False; [done |]. rewrite Hz. apply Qlt_irrefl. }
    rewrite Hsame in Hmed, Hzero.
    split; [| split].
    + destruct (filter (λ x, (0 < x)%Q) (map size_kb (pre ++ post)))
        as [| x l] eqn:Hsv.
      * by rewrite Hzero, Hzero'.
      * assert (Ok m = Ok m') as [= ->]; [| done].
        by rewrite <- Hmed, <- Hmed'.
    + rewrite !length_app. simpl. lia.
    + rewrite !sum_total, !map_app. simpl.
      assert (∀ xs ys, total (xs ++ ys) == total xs + total ys)%Q as Happ.
      { intros xs ys. induction xs as [| a xs IH]; simpl; [lra |].
        rewrite IH. lra. }
      rewrite !Happ. simpl. lra.
Qed.

(** ** More on the scan *)

Section ScanMore.

Variable g : Globals.
Variable fs : FileSystem.

(** The two loops, cut in two. *)
Lemma scan_files_app root files1 files2 records :
  scan_files g fs root (files1 ++ files2) records
  = bind (scan_files g fs root files1 records)
         (scan_files g fs root files2).
Proof.
  revert records. induction files1 as [| fn files1 IH]; intros records;
    [done |].
  simpl. destruct (try_block _ _ _ _ _) as [[r |] | e]; [by rewrite IH ..|].
  destruct (except_clause e); [by rewrite IH | done].
Qed.

Lemma scan_walk_app top triples1 triples2 records :
  scan_walk g fs top (triples1 ++ triples2) records
  = bind (scan_walk g fs top triples1 records)
         (scan_walk g fs top triples2).
Proof.
  revert records.
  induction triples1 as [| [[root dirs] files] triples1 IH]; intros records;
    [done |].
  simpl. destruct (negb (RECURSIVE g) && negb (root =? top)%string);
    [by rewrite IH |].
  destruct (scan_files g fs root files records); simpl; [by rewrite IH | done].
Qed.

(** A directory is scanned when the walk is recursive or the directory is
    the folder the scan was asked for. *)
Lemma scanned_gate root top :
  negb (RECURSIVE g) && negb (root =? top)%string = false
  ↔ RECURSIVE g = true ∨ root = top.
Proof.
  destruct (RECURSIVE g); simpl; [split; [by left | done] |].
  destruct (String.eqb_spec root top) as [-> | Hne]; simpl.
  - split; [by right | done].
  - split; [done | by intros [? | ?]].
Qed.

(** Where the records of a scan come from, and where they go. *)
Lemma scan_files_elem_of root files :
  ∀ records recs,
    scan_files g fs root files records = Ok recs →
    ∀ r, r ∈ recs ↔
         r ∈ records ∨
         ∃ fn, fn ∈ files ∧
               try_block g fs fn (OsPath.join root fn)
                 (Str.lower (OsPath.splitext fn).2) = Ok (Some r).
Proof.
  induction files as [| fn files IH]; simpl; intros records recs Hscan r.
  - injection Hscan as <-. split; [by left |].
    intros [? | (fn & Hin & _)]; [done | by apply elem_of_nil in Hin].
  - destruct (try_block g fs fn _ _) as [[r0 |] | e] eqn:Htry.
    + rewrite (IH _ _ Hscan r), elem_of_app, list_elem_of_singleton.
      split.
      * intros [[? | ->] | (fn' & Hin & Hfn')]; [by left | right | right].
        -- exists fn. split; [left | done].
        -- exists fn'. split; [by right | done].
      * intros [? | (fn' & [-> | Hin]%elem_of_cons & Hfn')].
        -- by left; left.
        -- left; right. congruence.
        -- right. by exists fn'.
    + rewrite (IH _ _ Hscan r). split.
      * intros [? | (fn' & Hin & Hfn')]; [by left | right].
        exists fn'. split; [by right | done].
      * intros [? | (fn' & [-> | Hin]%elem_of_cons & Hfn')];
          [by left | congruence | right; by exists fn'].
    + destruct (except_clause e); [| done].
      rewrite (IH _ _ Hscan r). split.
      * intros [? | (fn' & Hin & Hfn')]; [by left | right].
        exists fn'. split; [by right | done].
      * intros [? | (fn' & [-> | Hin]%elem_of_cons & Hfn')];
          [by left | congruence | right; by exists fn'].
Qed.

Lemma scan_walk_elem_of top triples :
  ∀ records recs,
    scan_walk g fs top triples records = Ok recs →
    ∀ r, r ∈ recs ↔
         r ∈ records ∨
         ∃ root dirs files fn,
           (root, dirs, files) ∈ triples ∧
           (RECURSIVE g = true ∨ root = top) ∧ fn ∈ files ∧
           try_block g fs fn (OsPath.join root fn)
             (Str.lower (OsPath.splitext fn).2) = Ok (Some r).
Proof.
  induction triples as [| [[root dirs] files] triples IH]; simpl;
    intros records recs Hscan r.
  - injection Hscan as <-. split; [by left |].
    intros [? | (? & ? & ? & ? & Hin & _)]; [done | by apply elem_of_nil in Hin].
  - destruct (negb (RECURSIVE g) && negb (root =? top)%string) eqn:Hgate.
    + rewrite (IH _ _ Hscan r). split.
      * intros [? | (root' & dirs' & files' & fn & Hin & Hrest)];
          [by left | right].
        exists root', dirs', files', fn. split; [by right | done].
      * intros [? | (root' & dirs' & files' & fn & Hin & Hg & Hrest)];
          [by left |].
        apply elem_of_cons in Hin as [[= -> -> ->] | Hin].
        -- apply scanned_gate in Hg. congruence.
        -- right. by exists root', dirs', files', fn.
    + destruct (scan_files g fs root files records) as [records' | e]
        eqn:Hfiles; simpl in Hscan; [| done].
      rewrite (IH _ _ Hscan r), (scan_files_elem_of _ _ _ _ Hfiles r).
      apply scanned_gate in Hgate. split.
      * intros [[? | (fn & Hin & Hfn)]
               | (root' & dirs' & files' & fn & Hin & Hrest)].
        -- by left.
        -- right. exists root, dirs, files, fn. split; [left | done].
        -- right. exists root', dirs', files', fn. split; [by right | done].
      * intros [? | (root' & dirs' & files' & fn & Hin & Hg & Hfn & Htry)].
        -- by left; left.
        -- apply elem_of_cons in Hin as [[= -> -> ->] | Hin].
           ++ left; right. by exists fn.
           ++ right. by exists root', dirs', files', fn.
Qed.

End ScanMore.

Section ScanOutcome.

Variable g : Globals.
Variable fs : FileSystem.

Lemma try_block_Raise fn fp ext e :
  try_block g fs fn fp ext = Raise e ↔ fails_with g fs fp e.
Proof.
  unfold try_block, fails_with, size_of_bytes. split.
  - destruct (getsize fs fp) as [n | e0] eqn:Hsize; simpl;
      [| intros [= ->]; by left].
    destruct (Num.ltb _ (MIN_SIZE_KB g)) eqn:Hlt; [done |].
    intros Htry. right. exists n. split; [done |]. split; [done |].
    destruct (getmtime fs fp) as [ts | e1] eqn:Hmtime; simpl in Htry;
      [| injection Htry as ->; by left].
    right. exists ts. split; [done |].
    destruct (strftime fs ts DATE_FORMAT) as [lm | e2] eqn:Hfmt;
      simpl in Htry; [done | by injection Htry as ->].
  - intros [-> | (n & -> & Hlt & [-> | (ts & -> & Hfmt)])]; simpl; [done | |].
    + by rewrite Hlt.
    + rewrite Hlt. simpl. by rewrite Hfmt.
Qed.

(** The records appended by the inner loop, and the paths they name. *)
Lemma scan_files_paths root files :
  ∀ records recs,
    scan_files g fs root files records = Ok recs →
    ∃ new, recs = records ++ new ∧
           sublist (map full_path new) (map (OsPath.join root) files).
Proof.
  induction files as [| fn files IH]; simpl; intros records recs Hscan.
  - injection Hscan as <-. exists []. by rewrite app_nil_r.
  - destruct (try_block g fs fn _ _) as [[r |] | e] eqn:Htry.
    + destruct (IH _ _ Hscan) as (new & -> & Hsub).
      exists (r :: new). split; [by rewrite <- app_assoc |].
      apply try_block_Some in Htry as (? & ? & ? & _ & _ & _ & _ & ->).
      simpl. by apply sublist_skip.
    + destruct (IH _ _ Hscan) as (new & -> & Hsub).
      exists new. split; [done |]. by apply sublist_cons.
    + destruct (except_clause e); [| done].
      destruct (IH _ _ Hscan) as (new & -> & Hsub).
      exists new. split; [done |]. by apply sublist_cons.
Qed.

Lemma scan_walk_paths top triples :
  ∀ records recs,
    scan_walk g fs top triples records = Ok recs →
    ∃ new, recs = records ++ new ∧
           sublist (map full_path new) (walk_paths triples).
Proof.
  unfold walk_paths.
  induction triples as [| [[root dirs] files] triples IH]; simpl;
    intros records recs Hscan.
  - injection Hscan as <-. exists []. by rewrite app_nil_r.
  - destruct (negb (RECURSIVE g) && negb (root =? top)%string).
    + destruct (IH _ _ Hscan) as (new & -> & Hsub).
      exists new. split; [done |]. by apply sublist_inserts_l.
    + destruct (scan_files g fs root files records) as [records' | e]
        eqn:Hfiles; simpl in Hscan; [| done].
      destruct (scan_files_paths _ _ _ _ Hfiles) as (new1 & -> & Hsub1).
      destruct (IH _ _ Hscan) as (new2 & -> & Hsub2).
      exists (new1 ++ new2). split; [by rewrite <- app_assoc |].
      rewrite map_app. by apply sublist_app.
Qed.

End ScanOutcome.

Lemma ascii_lower_idemp (c : ascii) :
  Str.ascii_lower (Str.ascii_lower c) = Str.ascii_lower c.
Proof. by destruct c as [[] [] [] [] [] [] [] []]. Qed.

Lemma ascii_lower_dot (c : ascii) :
  Ascii.eqb (Str.ascii_lower c) "." = Ascii.eqb c ".".
Proof. by destruct c as [[] [] [] [] [] [] [] []]. Qed.

Lemma lower_idemp (s : string) : Str.lower (Str.lower s) = Str.lower s.
Proof.
  induction s as [| c s IH]; [done |].
  simpl. by rewrite ascii_lower_idemp, IH.
Qed.

Lemma elem_dot_lower (s : string) : Str.elem "." (Str.lower s) = Str.elem "." s.
Proof.
  induction s as [| c s IH]; [done |].
  simpl. by rewrite ascii_lower_dot, IH.
Qed.

Lemma lower_length (s : string) :
  String.length (Str.lower s) = String.length s.
Proof. induction s as [| c s IH]; [done | simpl; by rewrite IH]. Qed.

(** A string either has no [c], or splits at its last [c]. *)
Lemma str_last_split (c : ascii) (s : string) :
  Str.elem c s = false ∨
  ∃ stem suf, s = stem +:+ String c suf ∧ Str.elem c suf = false.
Proof.
  induction s as [| a s IH]; [by left |].
  destruct IH as [Hs | (stem & suf & -> & Hsuf)].
  - simpl. destruct (Ascii.eqb_spec a c) as [-> | Hne].
    + right. exists EmptyString, s. by rewrite str_app_nil.
    + left. done.
  - right. exists (String a stem), suf. by rewrite str_app_cons.
Qed.

Lemma take_drop_str (n : nat) (s : string) : Str.take n s +:+ Str.drop n s = s.
Proof.
  revert s. induction n as [| n IH]; intros [| a s]; try done.
  simpl. by rewrite str_app_cons, IH.
Qed.

(** [os.path.splitext] cuts its argument in two, and the second part is
    empty or runs from the last ['.'] on. *)
Lemma splitext_join (p : string) :
  (OsPath.splitext p).1 +:+ (OsPath.splitext p).2 = p.
Proof.
  unfold OsPath.splitext. destruct (_ && _); simpl.
  - apply take_drop_str.
  - clear. induction p as [| a p IH]; [done |].
    by rewrite str_app_cons, IH.
Qed.

Lemma splitext_ext_shape (p : string) :
  (OsPath.splitext p).2 = EmptyString ∨
  ∃ suf, (OsPath.splitext p).2 = String "." suf ∧ Str.elem "." suf = false.
Proof.
  unfold OsPath.splitext.
  destruct (_ && _) eqn:Hcond; simpl; [| by left].
  destruct (str_last_split OsPath.extsep p) as [Hno | (stem & suf & -> & Hsuf)].
  - apply andb_true_iff in Hcond as [Hlt _]. apply Z.ltb_lt in Hlt.
    unfold Str.rfind in Hlt. rewrite (rfind_from_absent _ _ Hno) in Hlt.
    pose proof (rfind_from_lower_bound OsPath.sep p 0 (-1)). lia.
  - right. exists suf. split; [| done]. unfold Str.rfind.
    rewrite (rfind_from_last _ _ _ Hsuf), Z.add_0_l, Nat2Z.id.
    apply drop_app.
Qed.

(** C8.  A file whose size or modification time cannot be read, because it
    has vanished or permission is denied, is skipped.  The scan returns what
    it returns on the same tree without that file, so the file brings
    neither a record nor an exception; no record of a scan names a file
    that cannot be read; if the files that fail all fail with one of the
    two exceptions, the scan returns and raises nothing; and the scan
    continues: every other file of a scanned directory, before or after the
    unreadable one, whose size and time can be read and whose size is not
    below the threshold has its record in the result. *)
Theorem scan_folder_skips_inaccessible (g : Globals) (fs : FileSystem)
    (folder_path root bad : string) (dirs pre post : list string)
    (t1 t2 : list (string * list string * list string)) :
  walk fs folder_path = t1 ++ (root, dirs, pre ++ bad :: post) :: t2 →
  Inaccessible fs (OsPath.join root bad) →
  scan_folder g fs folder_path
  = scan_walk g fs folder_path (t1 ++ (root, dirs, pre ++ post) :: t2) [] ∧
  (∀ records r,
     scan_folder g fs folder_path = Ok records →
     r ∈ records → ¬ Inaccessible fs (full_path r)) ∧
  ((∀ root' dirs' files' fn e,
      (root', dirs', files') ∈ walk fs folder_path → fn ∈ files' →
      fails_with g fs (OsPath.join root' fn) e → except_clause e = true) →
   ∃ records, scan_folder g fs folder_path = Ok records) ∧
  (∀ records root' dirs' files' fn size_bytes modified_ts modified,
     scan_folder g fs folder_path = Ok records →
     (root', dirs', files') ∈ walk fs folder_path →
     RECURSIVE g = true ∨ root' = folder_path →
     fn ∈ files' →
     getsize fs (OsPath.join root' fn) = Ok size_bytes →
     (MIN_SIZE_KB g <= size_of_bytes size_bytes)%Q →
     getmtime fs (OsPath.join root' fn) = Ok modified_ts →
     strftime fs modified_ts DATE_FORMAT = Ok modified →
     {| filename := fn;
        full_path := OsPath.join root' fn;
        extension := Str.lower (OsPath.splitext fn).2;
        size_kb := size_of_bytes size_bytes;
        last_modified := modified |} ∈ records).
Proof.
  intros Hwalk Hbad. split; [| split; [| split]].
  - unfold scan_folder. rewrite Hwalk. by apply scan_walk_skip.
  - intros records r Hscan Hin. revert r Hin. apply Forall_forall.
    revert Hscan. apply scan_folder_Forall.
    intros root' fn r (n & ts & lm & Hsize & _ & Hmtime & _ & ->)%try_block_Some.
    simpl. unfold Inaccessible, vanished_or_denied.
    rewrite Hsize, Hmtime. intros [[? | ?] | [_ [? | ?]]]; discriminate.
  - intros Hfail. apply scan_walk_returns.
    intros root' dirs' files' fn e Hin Hfn Htry.
    apply (Hfail root' dirs' files' fn e Hin Hfn).
    by apply (try_block_Raise g fs fn _ (Str.lower (OsPath.splitext fn).2)).
  - intros records root' dirs' files' fn size_bytes modified_ts modified
      Hscan Hin Hgate Hfn Hsize Hmin Hmtime Hfmt.
    apply (scan_walk_elem_of g fs _ _ _ _ Hscan). right.
    exists root', dirs', files', fn. repeat split; try done.
    unfold try_block. rewrite Hsize. simpl.
    assert (Num.ltb (size_of_bytes size_bytes) (MIN_SIZE_KB g) = false)
      as Hlt.
    { unfold Num.ltb. apply negb_false_iff. by apply Qle_bool_iff. }
    unfold size_of_bytes in Hlt. rewrite Hlt.
    rewrite Hmtime. simpl. by rewrite Hfmt.
Qed.

Lemma scan_folder_skips_inaccessible_witness :
  scan_folder module_globals example_fs "/r"
  = scan_walk module_globals example_fs "/r"
      ([] ++ ("/r", ["sub"], ["small.txt"; "Big.BIN"] ++ [".profile"])
          :: [("/r/sub", [], ["x.tar.GZ"; "locked.db"])]) [] ∧
  (∃ records, scan_folder module_globals example_fs "/r" = Ok records) ∧
  {| filename := ".profile";
     full_path := OsPath.join "/r" ".profile";
     extension := Str.lower (OsPath.splitext ".profile").2;
     size_kb := size_of_bytes 20480;
     last_modified := "1970-01-01 00:00:00" |}
  ∈ match scan_folder module_globals example_fs "/r" with
    | Ok records => records
    | Raise _ => []
    end.
Proof.
  destruct (scan_folder_skips_inaccessible module_globals example_fs "/r"
              "/r" "gone.log" ["sub"] ["small.txt"; "Big.BIN"] [".profile"]
              [] [("/r/sub", [], ["x.tar.GZ"; "locked.db"])])
    as (Hskip & _ & Hreturns & Hcontinues).
  - reflexivity.
  - left. right. reflexivity.
  - split; [exact Hskip |]. split.
    + apply Hreturns.
      intros root dirs files fn e Hwalk Hfn Hfail.
      apply (try_block_Raise module_globals example_fs fn _
               (Str.lower (OsPath.splitext fn).2)) in Hfail.
      vm_compute in Hwalk.
      repeat (apply elem_of_cons in Hwalk as [Hwalk | Hwalk];
              [injection Hwalk as -> -> -> |]);
        [| | by apply elem_of_nil in Hwalk];
        repeat (apply elem_of_cons in Hfn as [-> | Hfn]);
        try (by apply elem_of_nil in Hfn);
        vm_compute in Hfail; by try injection Hfail as <-.
    + apply (Hcontinues _ "/r" ["sub"]
               ["small.txt"; "Big.BIN"; "gone.log"; ".profile"] ".profile"
               20480%N 0%Q).
      * vm_compute. reflexivity.
      * vm_compute. left.
      * left. reflexivity.
      * do 3 right. left.
      * reflexivity.
      * vm_compute. discriminate.
      * reflexivity.
      * reflexivity.
Defined.

Lemma ltb_false_iff (x y : Q) : Num.ltb x y = false ↔ (y <= x)%Q.
Proof.
  unfold Num.ltb. rewrite negb_false_iff. apply Qle_bool_iff.
Qed.

(** X1.  With [RECURSIVE] off, every record comes from the folder the scan
    was asked for: its name is among the files the walk lists for that
    folder, and its path is that folder joined with the name. *)
Theorem scan_folder_top_level_only (g : Globals) (fs : FileSystem)
    (folder_path : string) (records : list FileRecord) :
  RECURSIVE g = false →
  scan_folder g fs folder_path = Ok records →
  Forall (λ r, ∃ dirs files,
                 (folder_path, dirs, files) ∈ walk fs folder_path ∧
                 filename r ∈ files ∧
                 full_path r = OsPath.join folder_path (filename r))
         records.
Proof.
  intros Hrec Hscan. apply Forall_forall. intros r Hin.
  apply (scan_walk_elem_of g fs _ _ _ _ Hscan) in Hin
    as [Hin | (root & dirs & files & fn & Hwalk & Hgate & Hfn & Htry)];
    [by apply elem_of_nil in Hin |].
  destruct Hgate as [Hgate | ->]; [congruence |].
  apply try_block_Some in Htry as (? & ? & ? & _ & _ & _ & _ & ->).
  by exists dirs, files.
Qed.

Lemma scan_folder_top_level_only_witness :
  ∃ records,
    scan_folder top_level_globals example_fs "/r" = Ok records ∧
    length records = 2%nat ∧
    Forall (λ r, ∃ dirs files,
                   ("/r", dirs, files) ∈ walk example_fs "/r" ∧
                   filename r ∈ files ∧
                   full_path r = OsPath.join "/r" (filename r))
           records.
Proof.
  eexists. split; [vm_compute; reflexivity |]. split; [reflexivity |].
  apply (scan_folder_top_level_only top_level_globals example_fs "/r").
  - reflexivity.
  - vm_compute. reflexivity.
Defined.

(** X2.  A scan that returns leaves no qualifying file out: a file of a
    scanned directory whose size and time can be read, and whose rounded
    size is not below the threshold, has its record in the result. *)
Theorem scan_folder_complete (g : Globals) (fs : FileSystem)
    (folder_path : string) (records : list FileRecord)
    (root fn : string) (dirs files : list string)
    (size_bytes : N) (modified_ts : Q) (modified : string) :
  scan_folder g fs folder_path = Ok records →
  (root, dirs, files) ∈ walk fs folder_path →
  RECURSIVE g = true ∨ root = folder_path →
  fn ∈ files →
  getsize fs (OsPath.join root fn) = Ok size_bytes →
  (MIN_SIZE_KB g <= size_of_bytes size_bytes)%Q →
  getmtime fs (OsPath.join root fn) = Ok modified_ts →
  strftime fs modified_ts DATE_FORMAT = Ok modified →
  {| filename := fn;
     full_path := OsPath.join root fn;
     extension := Str.lower (OsPath.splitext fn).2;
     size_kb := size_of_bytes size_bytes;
     last_modified := modified |} ∈ records.
Proof.
  intros Hscan Hwalk Hgate Hfn Hsize Hmin Hmtime Hfmt.
  apply (scan_walk_elem_of g fs _ _ _ _ Hscan). right.
  exists root, dirs, files, fn. repeat split; try done.
  unfold try_block. rewrite Hsize. simpl.
  apply ltb_false_iff in Hmin. unfold size_of_bytes in Hmin. rewrite Hmin.
  rewrite Hmtime. simpl. by rewrite Hfmt.
Qed.

Lemma scan_folder_complete_witness :
  {| filename := "x.tar.GZ";
     full_path := OsPath.join "/r/sub" "x.tar.GZ";
     extension := Str.lower (OsPath.splitext "x.tar.GZ").2;
     size_kb := size_of_bytes 20480;
     last_modified := "1970-01-01 00:00:00" |}
  ∈ match scan_folder module_globals example_fs "/r" with
    | Ok records => records
    | Raise _ => []
    end.
Proof.
  apply (scan_folder_complete module_globals example_fs "/r" _
           "/r/sub" "x.tar.GZ" [] ["x.tar.GZ"; "locked.db"] 20480 0).
  - vm_compute. reflexivity.
  - vm_compute. right. left.
  - left. reflexivity.
  - left.
  - reflexivity.
  - vm_compute. discriminate.
  - reflexivity.
  - reflexivity.
Defined.

(** X3.  The records come in the order of the walk: their paths are a
    subsequence of the paths of the walked files. *)
Theorem scan_folder_traversal_order (g : Globals) (fs : FileSystem)
    (folder_path : string) (records : list FileRecord) :
  scan_folder g fs folder_path = Ok records →
  sublist (map full_path records) (walk_paths (walk fs folder_path)).
Proof.
  intros Hscan.
  by destruct (scan_walk_paths g fs _ _ _ _ Hscan) as (new & -> & Hsub).
Qed.

Lemma scan_folder_traversal_order_witness :
  sublist ["/r/Big.BIN"; "/r/.profile"; "/r/sub/x.tar.GZ"]
    (walk_paths (walk example_fs "/r")).
Proof.
  apply (scan_folder_traversal_order module_globals example_fs "/r"
           (match scan_folder module_globals example_fs "/r" with
            | Ok records => records
            | Raise _ => []
            end)).
  vm_compute. reflexivity.
Defined.

(** X4.  An exception other than [PermissionError] and [FileNotFoundError]
    ends the scan: when the files before it were scanned without such an
    exception, the exception raised for a file of a scanned directory is
    the outcome of [scan_folder], and no record is returned. *)
Theorem scan_folder_propagates (g : Globals) (fs : FileSystem)
    (folder_path root bad : string) (dirs pre post : list string)
    (t1 t2 : list (string * list string * list string))
    (before : list FileRecord) (e : exn) :
  walk fs folder_path = t1 ++ (root, dirs, pre ++ bad :: post) :: t2 →
  RECURSIVE g = true ∨ root = folder_path →
  scan_walk g fs folder_path (t1 ++ [(root, dirs, pre)]) [] = Ok before →
  fails_with g fs (OsPath.join root bad) e →
  except_clause e = false →
  scan_folder g fs folder_path = Raise e.
Proof.
  intros Hwalk Hgate Hbefore Hfail Hexc.
  unfold scan_folder. rewrite Hwalk.
  rewrite scan_walk_app in Hbefore |- *.
  destruct (scan_walk g fs folder_path t1 []) as [records1 | e1];
    simpl in Hbefore |- *; [| done].
  apply scanned_gate in Hgate. rewrite Hgate in Hbefore |- *.
  rewrite scan_files_app.
  destruct (scan_files g fs root pre records1) as [records2 | e2];
    simpl in Hbefore |- *; [| done].
  apply (try_block_Raise g fs bad _ (Str.lower (OsPath.splitext bad).2))
    in Hfail.
  by rewrite Hfail, Hexc.
Qed.

Lemma scan_folder_propagates_witness :
  scan_folder module_globals example_fs_io_error "/r" = Raise OSError.
Proof.
  apply (scan_folder_propagates module_globals example_fs_io_error
           "/r" "/r/sub" "x.tar.GZ" [] [] ["locked.db"]
           [("/r", ["sub"], ["small.txt"; "Big.BIN"; "gone.log"; ".profile"])]
           []
           (match scan_walk module_globals example_fs_io_error "/r"
                    [("/r", ["sub"],
                      ["small.txt"; "Big.BIN"; "gone.log"; ".profile"]);
                     ("/r/sub", [], [])] [] with
            | Ok records => records
            | Raise _ => []
            end)).
  - reflexivity.
  - left. reflexivity.
  - vm_compute. reflexivity.
  - left. reflexivity.
  - reflexivity.
Defined.

(** X5.  When every failure of looking at a file of the walk is a
    [PermissionError] or a [FileNotFoundError], the scan returns a list of
    records: it raises nothing. *)
Theorem scan_folder_returns (g : Globals) (fs : FileSystem)
    (folder_path : string) :
  (∀ root dirs files fn e,
     (root, dirs, files) ∈ walk fs folder_path → fn ∈ files →
     fails_with g fs (OsPath.join root fn) e → except_clause e = true) →
  ∃ records, scan_folder g fs folder_path = Ok records.
Proof.
  intros Hfail. apply scan_walk_returns.
  intros root dirs files fn e Hwalk Hfn Htry.
  apply (Hfail root dirs files fn e Hwalk Hfn).
  by apply (try_block_Raise g fs fn _ (Str.lower (OsPath.splitext fn).2)).
Qed.

Lemma scan_folder_returns_witness :
  ∃ records, scan_folder module_globals example_fs "/r" = Ok records.
Proof.
  apply (scan_folder_returns module_globals example_fs "/r").
  intros root dirs files fn e Hwalk Hfn Hfail.
  apply (try_block_Raise module_globals example_fs fn _
           (Str.lower (OsPath.splitext fn).2)) in Hfail.
  vm_compute in Hwalk.
  repeat (apply elem_of_cons in Hwalk as [Hwalk | Hwalk];
          [injection Hwalk as -> -> -> |]);
    [| | by apply elem_of_nil in Hwalk];
    repeat (apply elem_of_cons in Hfn as [-> | Hfn]);
    try (by apply elem_of_nil in Hfn);
    vm_compute in Hfail; by try injection Hfail as <-.
Defined.

(** Rounding to the nearest whole number keeps the order. *)
Lemma round_monotone (x y : Q) : (x <= y)%Q → Num.round x ≤ Num.round y.
Proof.
  intros Hxy.
  destruct (Z_le_gt_dec (Num.round x) (Num.round y)) as [Hle | Hgt]; [done |].
  exfalso.
  pose proof (round_nearest_even x) as Hx.
  pose proof (round_nearest_even y) as Hy.
  unfold nearest_even in Hx, Hy.
  set (rx := Num.round x) in *. set (ry := Num.round y) in *.
  assert (inject_Z ry + 1 <= inject_Z rx)%Q as Hr.
  { change 1%Q with (inject_Z 1). rewrite <- inject_Z_plus, <- Zle_Qle. lia. }
  assert (Qabs (x - inject_Z rx) <= 1 # 2)%Q as Hx'
    by (destruct Hx as [H | [H _]]; [by apply Qlt_le_weak | by rewrite H]).
  assert (Qabs (y - inject_Z ry) <= 1 # 2)%Q as Hy'
    by (destruct Hy as [H | [H _]]; [by apply Qlt_le_weak | by rewrite H]).
  apply Qabs_Qle_condition in Hx' as [Hx1 _].
  apply Qabs_Qle_condition in Hy' as [_ Hy2].
  destruct Hx as [Hxs | [_ Hxe]].
  { apply Qabs_Qlt_condition in Hxs as [Hxs _]. lra. }
  destruct Hy as [Hys | [_ Hye]].
  { apply Qabs_Qlt_condition in Hys as [_ Hys]. lra. }
  assert (inject_Z rx <= inject_Z (ry + 1))%Q as Hle
    by (rewrite inject_Z_plus; change (inject_Z 1) with 1%Q; lra).
  rewrite <- Zle_Qle in Hle.
  assert (rx = ry + 1) as Heq by lia.
  rewrite Heq, Z.even_add, Hye in Hxe. discriminate Hxe.
Qed.

(** A file with more bytes has no smaller size in KB, and no size is
    negative. *)
Lemma size_of_bytes_monotone (m n : N) :
  (m ≤ n)%N → (size_of_bytes m <= size_of_bytes n)%Q.
Proof.
  intros Hmn. unfold size_of_bytes, Num.round_ndigits.
  unfold Qdiv. apply Qmult_le_compat_r; [| done].
  rewrite <- Zle_Qle. apply round_monotone.
  apply Qmult_le_compat_r; [| done].
  apply Qmult_le_compat_r; [| done].
  rewrite <- Zle_Qle. lia.
Qed.

Lemma size_of_bytes_nonneg (n : N) : (0 <= size_of_bytes n)%Q.
Proof.
  apply (Qle_trans _ (size_of_bytes 0)); [vm_compute; discriminate |].
  apply size_of_bytes_monotone. lia.
Qed.

(** X6.  The sizes of the records of a scan follow the byte counts of their
    files: no size is negative, and of two records the one whose file has
    no more bytes has no greater size.  Division by 1024 and rounding to two
    decimals keep the order, also where they lose digits. *)
Theorem scan_folder_size_monotone (g : Globals) (fs : FileSystem)
    (folder_path : string) (records : list FileRecord)
    (r1 r2 : FileRecord) (n1 n2 : N) :
  scan_folder g fs folder_path = Ok records →
  r1 ∈ records → r2 ∈ records →
  getsize fs (full_path r1) = Ok n1 →
  getsize fs (full_path r2) = Ok n2 →
  (n1 ≤ n2)%N →
  (0 <= size_kb r1)%Q ∧ (size_kb r1 <= size_kb r2)%Q.
Proof.
  intros Hscan Hr1 Hr2 Hn1 Hn2 Hle.
  assert (Forall (λ r, ∃ n, getsize fs (full_path r) = Ok n ∧
                            size_kb r = size_of_bytes n) records) as Hall.
  { revert Hscan. apply scan_folder_Forall.
    intros root fn r (n & ts & lm & Hsize & _ & _ & _ & ->)%try_block_Some.
    by exists n. }
  rewrite Forall_forall in Hall.
  destruct (Hall r1 Hr1) as (m1 & Hm1 & ->).
  destruct (Hall r2 Hr2) as (m2 & Hm2 & ->).
  rewrite Hn1 in Hm1. injection Hm1 as <-.
  rewrite Hn2 in Hm2. injection Hm2 as <-.
  split; [apply size_of_bytes_nonneg | by apply size_of_bytes_monotone].
Qed.

Lemma scan_folder_size_monotone_witness :
  ∃ records r1 r2,
    scan_folder {| MIN_SIZE_KB := 5; RECURSIVE := true |} example_fs "/r"
    = Ok records ∧
    r1 ∈ records ∧ r2 ∈ records ∧
    filename r1 = "small.txt" ∧ filename r2 = "Big.BIN" ∧
    (0 <= size_kb r1)%Q ∧ (size_kb r1 <= size_kb r2)%Q.
Proof.
  eexists _, _, _. split; [vm_compute; reflexivity |].
  split; [left |]. split; [right; left |].
  split; [reflexivity |]. split; [reflexivity |].
  eapply (scan_folder_size_monotone
            {| MIN_SIZE_KB := 5; RECURSIVE := true |} example_fs "/r"
            _ _ _ 5120%N 20480%N);
    [vm_compute; reflexivity | left | right; left
     | vm_compute; reflexivity | vm_compute; reflexivity | lia].
Defined.

(** X7.  The extension of a record of a scan is already in lower case, so
    the [lower] of the duplicate grouper leaves it as it is: in size mode
    the key of such a record is the rounded half size with the stored
    extension. *)
Theorem scan_folder_extension_lower_case (g : Globals) (fs : FileSystem)
    (folder_path : string) (records : list FileRecord) :
  scan_folder g fs folder_path = Ok records →
  Forall (λ r, Str.lower (extension r) = extension r ∧
               group_key "size" r
               = Ok (inl (Num.round (size_kb r / 2)%Q, extension r)))
         records.
Proof.
  apply scan_folder_Forall.
  intros root fn r (n & ts & lm & _ & _ & _ & _ & ->)%try_block_Some.
  rewrite group_key_size. simpl. by rewrite lower_idemp.
Qed.

Lemma scan_folder_extension_lower_case_witness :
  ∃ records,
    scan_folder module_globals example_fs "/r" = Ok records ∧
    Forall (λ r, Str.lower (extension r) = extension r ∧
                 group_key "size" r
                 = Ok (inl (Num.round (size_kb r / 2)%Q, extension r)))
           records.
Proof.
  eexists. split; [vm_compute; reflexivity |].
  apply (scan_folder_extension_lower_case module_globals example_fs "/r").
  vm_compute. reflexivity.
Defined.

(** X8.  The extension of a record is the lower-cased end of its file
    name, cut where [os.path.splitext] cuts: it is empty, or it is a ['.']
    followed by text that holds no further ['.']. *)
Theorem scan_folder_extension_shape (g : Globals) (fs : FileSystem)
    (folder_path : string) (records : list FileRecord) :
  scan_folder g fs folder_path = Ok records →
  Forall (λ r, (∃ stem ext, filename r = stem +:+ ext ∧
                            extension r = Str.lower ext) ∧
               (extension r = EmptyString ∨
                ∃ suf, extension r = String "." suf ∧
                       Str.elem "." suf = false))
         records.
Proof.
  apply scan_folder_Forall.
  intros root fn r (n & ts & lm & _ & _ & _ & _ & ->)%try_block_Some.
  simpl. split.
  - exists (OsPath.splitext fn).1, (OsPath.splitext fn).2.
    by rewrite splitext_join.
  - destruct (splitext_ext_shape fn) as [-> | (suf & -> & Hsuf)];
      [by left | right].
    exists (Str.lower suf). by rewrite elem_dot_lower.
Qed.

Lemma scan_folder_extension_shape_witness :
  ∃ records,
    scan_folder module_globals example_fs "/r" = Ok records ∧
    Forall (λ r, (∃ stem ext, filename r = stem +:+ ext ∧
                              extension r = Str.lower ext) ∧
                 (extension r = EmptyString ∨
                  ∃ suf, extension r = String "." suf ∧
                         Str.elem "." suf = false))
           records.
Proof.
  eexists. split; [vm_compute; reflexivity |].
  apply (scan_folder_extension_shape module_globals example_fs "/r").
  vm_compute. reflexivity.
Defined.

(** ** More on the grouping *)

Lemma find_duplicates_Ok_inv mode records res :
  mode = "size" ∨ mode = "name" →
  find_duplicates records mode = Ok res →
  ∀ k v, res !! k = Some v ↔
         v = members mode k records ∧ (1 < length v)%nat.
Proof.
  intros Hmode Hfind.
  destruct (find_duplicates_lookup mode records Hmode) as (res' & Hfind' & Hres).
  rewrite Hfind in Hfind'. by injection Hfind' as <-.
Qed.

Lemma filter_nil_Forall {A} (P : A → Prop) `{∀ x, Decision (P x)}
    (l : list A) :
  Forall (λ x, ¬ P x) l → filter P l = [].
Proof.
  induction 1 as [| x l Hx _ IH]; [done |].
  by rewrite filter_cons, decide_False.
Qed.

(** A list has no two elements of one image when each image is hit at
    most once. *)
Lemma NoDup_fmap_filter {A B} `{EqDecision B} (f : A → B) (l : list A) :
  NoDup (map f l) ↔ ∀ b, (length (filter (λ x, f x = b) l) ≤ 1)%nat.
Proof.
  induction l as [| a l IH]; simpl.
  - split; [intros _ b; simpl; lia | intros _; constructor].
  - rewrite NoDup_cons, IH. split.
    + intros [Hnotin Hall] b. rewrite filter_cons.
      destruct (decide (f a = b)) as [<- | Hne]; [| apply Hall].
      assert (filter (λ x, f x = f a) l = []) as ->; [| simpl; lia].
      apply filter_nil_Forall, Forall_forall. intros x Hx Hfx.
      apply Hnotin. rewrite <- Hfx. by apply list_elem_of_fmap_2.
    + intros Hall. split.
      * intros (x & Hfx & Hx)%list_elem_of_fmap.
        specialize (Hall (f a)). rewrite filter_cons, decide_True in Hall
          by done.
        assert (x ∈ filter (λ y, f y = f a) l) as Hin
          by (by rewrite list_elem_of_filter).
        destruct (filter (λ y, f y = f a) l);
          [by apply elem_of_nil in Hin | simpl in Hall; lia].
      * intros b. specialize (Hall b). rewrite filter_cons in Hall.
        destruct (decide (f a = b)); simpl in Hall; lia.
Qed.

(** X9.  With records to group, a mode other than [size] and [name] is
    refused at the first record: [find_duplicates] raises the
    [ValueError] of its message and returns no dictionary. *)
Theorem find_duplicates_rejects_mode (records : list FileRecord)
    (mode : string) :
  records ≠ [] → mode ≠ "size" → mode ≠ "name" →
  find_duplicates records mode
  = Raise (ValueError "Mode must be either 'size' or 'name'").
Proof.
  intros Hne Hsize Hname. destruct records as [| r records]; [done |].
  unfold find_duplicates. simpl. by rewrite group_key_invalid.
Qed.

Lemma find_duplicates_rejects_mode_witness :
  find_duplicates example_records "hash"
  = Raise (ValueError "Mode must be either 'size' or 'name'").
Proof.
  apply (find_duplicates_rejects_mode example_records "hash"); done.
Defined.

(** X10.  For a recognized mode, the result is the empty dictionary
    exactly when no two records of the input have the same key. *)
Theorem find_duplicates_empty_iff_distinct (records : list FileRecord)
    (mode : string) :
  mode = "size" ∨ mode = "name" →
  find_duplicates records mode = Ok ∅
  ↔ NoDup (map (group_key mode) records).
Proof.
  intros Hmode.
  destruct (find_duplicates_lookup mode records Hmode) as (res & Hfind & Hres).
  rewrite Hfind, NoDup_fmap_filter. split.
  - intros [= ->] [k | e].
    + destruct (decide (1 < length (members mode k records))%nat)
        as [Hlen | Hlen]; [| unfold members in Hlen; lia].
      assert ((∅ : gmap key (list FileRecord)) !! k
              = Some (members mode k records)) as Hk by (by apply Hres).
      by rewrite lookup_empty in Hk.
    + assert (filter (λ r, group_key mode r = Raise e) records = []) as ->;
        [| simpl; lia].
      apply filter_nil_Forall, Forall_forall. intros r _.
      destruct (group_key_valid mode r Hmode) as [k ->]. done.
  - intros Hall. f_equal. apply map_empty. intros k.
    destruct (res !! k) as [v |] eqn:Hk; [| done].
    apply Hres in Hk as [-> Hlen]. specialize (Hall (Ok k)).
    unfold members in Hlen. lia.
Qed.

Lemma find_duplicates_empty_iff_distinct_witness :
  find_duplicates [example_record "a.txt" ".txt" 11 "/a";
                   example_record "b.txt" ".txt" 40 "/a"] "size" = Ok ∅
  ↔ NoDup (map (group_key "size")
             [example_record "a.txt" ".txt" 11 "/a";
              example_record "b.txt" ".txt" 40 "/a"]).
Proof.
  apply (find_duplicates_empty_iff_distinct _ "size"). left. reflexivity.
Defined.

(** X11.  For a recognized mode, the order of the input decides only the
    order inside the groups: two inputs with the same records give
    dictionaries with the same keys, and under each key the same records
    up to their order. *)
Theorem find_duplicates_permutation (records records' : list FileRecord)
    (mode : string) :
  mode = "size" ∨ mode = "name" →
  records ≡ₚ records' →
  ∃ res res',
    find_duplicates records mode = Ok res ∧
    find_duplicates records' mode = Ok res' ∧
    (∀ k, is_Some (res !! k) ↔ is_Some (res' !! k)) ∧
    (∀ k v v', res !! k = Some v → res' !! k = Some v' → v ≡ₚ v').
Proof.
  intros Hmode Hperm.
  destruct (find_duplicates_lookup mode records Hmode) as (res & Hfind & Hres).
  destruct (find_duplicates_lookup mode records' Hmode)
    as (res' & Hfind' & Hres').
  assert (∀ k, members mode k records ≡ₚ members mode k records') as Hmem
    by (intros k; unfold members; by rewrite Hperm).
  exists res, res'. split; [done |]. split; [done |]. split.
  - intros k. split.
    + intros [v [-> Hlen]%Hres]. exists (members mode k records').
      apply Hres'. split; [done |]. by rewrite <- (Hmem k).
    + intros [v [-> Hlen]%Hres']. exists (members mode k records).
      apply Hres. split; [done |]. by rewrite (Hmem k).
  - intros k v v' [-> _]%Hres [-> _]%Hres'. apply Hmem.
Qed.

Lemma find_duplicates_permutation_witness :
  ∃ res res',
    find_duplicates example_records "name" = Ok res ∧
    find_duplicates (reverse example_records) "name" = Ok res' ∧
    (∀ k, is_Some (res !! k) ↔ is_Some (res' !! k)) ∧
    (∀ k v v', res !! k = Some v → res' !! k = Some v' → v ≡ₚ v').
Proof.
  apply (find_duplicates_permutation example_records
           (reverse example_records) "name").
  - right. reflexivity.
  - symmetry. apply reverse_Permutation.
Defined.

(** X12.  In size mode the records of one group lie in one band: the sizes
    of two members differ by 2 KB at most, and their extensions agree up
    to case. *)
Theorem find_duplicates_size_band (records : list FileRecord)
    (res : gmap key (list FileRecord)) (k : key) (v : list FileRecord)
    (r1 r2 : FileRecord) :
  find_duplicates records "size" = Ok res →
  res !! k = Some v → r1 ∈ v → r2 ∈ v →
  (Qabs (size_kb r1 - size_kb r2) <= 2)%Q ∧
  Str.lower (extension r1) = Str.lower (extension r2).
Proof.
  intros Hfind Hk Hin1 Hin2.
  apply (find_duplicates_Ok_inv "size" records res (or_introl eq_refl) Hfind)
    in Hk as [-> _].
  apply members_elem_of in Hin1 as [Hk1 _], Hin2 as [Hk2 _].
  rewrite group_key_size in Hk1, Hk2. rewrite <- Hk1 in Hk2.
  injection Hk2 as Hround Hext. split; [| done].
  assert (∀ x, Qabs (x - inject_Z (Num.round x)) <= 1 # 2)%Q as Hnear.
  { intros x. destruct (round_nearest_even x) as [H | [H _]];
      [by apply Qlt_le_weak | by rewrite H]. }
  pose proof (Hnear (size_kb r1 / 2)%Q) as H1.
  pose proof (Hnear (size_kb r2 / 2)%Q) as H2.
  rewrite Hround in H2.
  apply Qabs_Qle_condition in H1 as [H1a H1b], H2 as [H2a H2b].
  unfold Qdiv in *. change (/ 2)%Q with (1 # 2)%Q in *.
  set (n := inject_Z (Num.round (size_kb r1 * (1 # 2)))) in *. clearbody n.
  apply Qabs_case; intros _; lra.
Qed.

Lemma find_duplicates_size_band_witness :
  (Qabs (11 - (25 # 2)) <= 2)%Q ∧ Str.lower ".pdf" = Str.lower ".pdf".
Proof.
  apply (find_duplicates_size_band example_records
           (match find_duplicates example_records "size" with
            | Ok res => res
            | Raise _ => ∅
            end)
           (inl (6, ".pdf"))
           [example_record "Report.PDF" ".pdf" 11 "/a";
            example_record "report.pdf" ".pdf" (25 # 2) "/b"]
           (example_record "Report.PDF" ".pdf" 11 "/a")
           (example_record "report.pdf" ".pdf" (25 # 2) "/b")).
  - vm_compute. reflexivity.
  - vm_compute. reflexivity.
  - left.
  - right. left.
Defined.

(** ** More on the summary *)

(** A value that has a rank in a list is, up to equality of rationals, an
    element of it. *)
Lemma count_lt_le_elem (x : Q) (data : list Q) :
  (count_lt x data < count_le x data)%nat → ∃ y, y ∈ data ∧ (y == x)%Q.
Proof.
  induction data as [| a data IH]; [unfold count_lt, count_le; simpl; lia |].
  rewrite count_lt_cons, count_le_cons. intros Hlt.
  destruct (decide (a <= x)%Q) as [Hle | Hnle].
  - destruct (decide (a < x)%Q) as [Halt | Hnlt].
    + destruct IH as (y & Hy & Hyx); [lia |]. exists y. split; [by right | done].
    + exists a. split; [left |]. apply Qle_antisym; [done |].
      by apply Qnot_lt_le.
  - destruct (decide (a < x)%Q) as [Halt | Hnlt].
    + exfalso. apply Hnle. by apply Qlt_le_weak.
    + destruct IH as (y & Hy & Hyx); [lia |]. exists y. split; [by right | done].
Qed.

Lemma order_statistic_elem (data : list Q) (i : nat) (x : Q) :
  order_statistic data i x → ∃ y, y ∈ data ∧ (y == x)%Q.
Proof. intros [Hlt Hle]. apply count_lt_le_elem. lia. Qed.

(** The median is the mean of two values of the data. *)
Lemma statistical_median_mean (data : list Q) (m : Q) :
  statistical_median data m →
  ∃ a b, a ∈ data ∧ b ∈ data ∧ (m == (a + b) * (1 # 2))%Q.
Proof.
  intros (Hpos & Hodd & Heven).
  pose proof (Nat.mod_upper_bound (length data) 2) as Hmod.
  destruct (decide (length data mod 2 = 1)%nat) as [H1 | H1].
  - destruct (Hodd H1) as (x & (y & Hy & Hyx)%order_statistic_elem & Hm).
    exists y, y. repeat split; try done. rewrite Hm, <- Hyx. lra.
  - destruct Heven as (a & b & (a' & Ha' & Haa)%order_statistic_elem
                           & (b' & Hb' & Hbb)%order_statistic_elem & Hm);
      [lia |].
    exists a', b'. repeat split; try done. rewrite Hm, Haa, Hbb.
    unfold Qdiv. by change (/ 2)%Q with (1 # 2)%Q.
Qed.

Lemma statistical_median_lower (data : list Q) (m lo : Q) :
  Forall (Qle lo) data → statistical_median data m → (lo <= m)%Q.
Proof.
  intros Hall (a & b & Ha & Hb & ->)%statistical_median_mean.
  rewrite Forall_forall in Hall.
  pose proof (Hall a Ha). pose proof (Hall b Hb). lra.
Qed.

Lemma statistical_median_upper (data : list Q) (m hi : Q) :
  Forall (λ x, x <= hi)%Q data → statistical_median data m → (m <= hi)%Q.
Proof.
  intros Hall (a & b & Ha & Hb & ->)%statistical_median_mean.
  rewrite Forall_forall in Hall.
  pose proof (Hall a Ha). pose proof (Hall b Hb). lra.
Qed.

Lemma filter_positive_all (xs : list Q) (lo : Q) :
  (0 < lo)%Q → Forall (Qle lo) xs → filter (λ x, (0 < x)%Q) xs = xs.
Proof.
  intros Hlo. induction 1 as [| x xs Hx _ IH]; [done |].
  rewrite filter_cons, decide_True by lra. by rewrite IH.
Qed.

(** The summary of a list of records that is not empty and whose sizes are
    at least [lo], with [0 < lo]. *)
Lemma print_summary_lower (records : list FileRecord) (lo : Q) :
  records ≠ [] → (0 < lo)%Q →
  Forall (λ r, lo <= size_kb r)%Q records →
  ∃ s, print_summary records = Ok s ∧
       total_files s = length records ∧
       (lo <= median_size_kb s)%Q ∧
       statistical_median (map size_kb records) (median_size_kb s).
Proof.
  intros Hne Hlo Hall.
  assert (Forall (Qle lo) (map size_kb records)) as Hall'
    by (by apply Forall_fmap).
  destruct (print_summary_Ok records) as (m & Hsum & Hmed & _).
  rewrite (filter_positive_all _ lo Hlo Hall') in Hmed.
  assert (map size_kb records ≠ []) as Hne' by (by destruct records).
  destruct (median_statistical _ Hne') as (m' & Hm' & Hstat).
  rewrite (Hmed Hne') in Hm'. injection Hm' as <-.
  eexists. split; [exact Hsum |]. simpl.
  split; [done |]. split; [| done].
  by apply (statistical_median_lower (map size_kb records)).
Qed.

(** X13.  For records whose sizes all lie between [lo] and [hi], with
    [0 < lo], the median reported lies between [lo] and [hi] as well: it is
    one of the sizes, or half the sum of two of them. *)
Theorem print_summary_median_bounds (records : list FileRecord) (lo hi : Q) :
  records ≠ [] → (0 < lo)%Q →
  Forall (λ r, lo <= size_kb r <= hi)%Q records →
  ∃ s, print_summary records = Ok s ∧
       (lo <= median_size_kb s <= hi)%Q.
Proof.
  intros Hne Hlo Hall.
  assert (Forall (λ r, lo <= size_kb r)%Q records) as Hlower
    by (eapply Forall_impl; [exact Hall | by intros r [? ?]]).
  assert (Forall (λ x, x <= hi)%Q (map size_kb records)) as Hupper.
  { apply Forall_fmap. eapply Forall_impl; [exact Hall | by intros r [? ?]]. }
  destruct (print_summary_lower records lo Hne Hlo Hlower)
    as (s & Hsum & _ & Hmed_lo & Hstat).
  exists s. split; [done |]. split; [done |].
  by apply (statistical_median_upper (map size_kb records)).
Qed.

Lemma print_summary_median_bounds_witness :
  ∃ s, print_summary example_records = Ok s ∧
       (11 <= median_size_kb s <= 30)%Q.
Proof.
  apply (print_summary_median_bounds example_records 11 30).
  - done.
  - reflexivity.
  - repeat constructor; vm_compute; discriminate.
Defined.

(** X14.  The summary of a scan made with a threshold above 0: every
    record is counted and takes part in the median, which is the
    statistical median of all the sizes and does not lie below the
    threshold. *)
Theorem scan_folder_print_summary (g : Globals) (fs : FileSystem)
    (folder_path : string) (records : list FileRecord) :
  scan_folder g fs folder_path = Ok records →
  (0 < MIN_SIZE_KB g)%Q → records ≠ [] →
  ∃ s, print_summary records = Ok s ∧
       total_files s = length records ∧
       (MIN_SIZE_KB g <= median_size_kb s)%Q ∧
       statistical_median (map size_kb records) (median_size_kb s).
Proof.
  intros Hscan Hmin Hne.
  assert (Forall (λ r, MIN_SIZE_KB g <= size_kb r)%Q records) as Hall.
  { revert Hscan. apply scan_folder_Forall.
    intros root fn r (n & ts & lm & _ & Hlt & _ & _ & ->)%try_block_Some.
    by apply ltb_false_le in Hlt. }
  destruct (print_summary_lower records _ Hne Hmin Hall)
    as (s & Hsum & Hlen & Hmed & Hstat).
  by exists s.
Qed.

Lemma scan_folder_print_summary_witness :
  ∃ records s,
    scan_folder module_globals example_fs "/r" = Ok records ∧
    print_summary records = Ok s ∧
    total_files s = length records ∧
    (10 <= median_size_kb s)%Q ∧
    statistical_median (map size_kb records) (median_size_kb s).
Proof.
  eexists.
  destruct (scan_folder_print_summary module_globals example_fs "/r"
              (match scan_folder module_globals example_fs "/r" with
               | Ok records => records
               | Raise _ => []
               end)) as (s & Hs);
    [vm_compute; reflexivity | reflexivity | vm_compute; discriminate |].
  exists s. split; [vm_compute; reflexivity | exact Hs].
Defined.

Lemma statistical_median_Permutation (data data' : list Q) (m : Q) :
  data ≡ₚ data' → statistical_median data m → statistical_median data' m.
Proof.
  intros Hperm (Hpos & Hodd & Heven).
  assert (length data' = length data) as Hlen by (by rewrite Hperm).
  unfold statistical_median. rewrite Hlen.
  split; [done |]. split.
  - intros H. destruct (Hodd H) as (x & Hx & Hm).
    exists x. split; [by apply (order_statistic_Permutation data) | done].
  - intros H. destruct (Heven H) as (a & b & Ha & Hb & Hm).
    exists a, b. split; [by apply (order_statistic_Permutation data) |].
    split; [by apply (order_statistic_Permutation data) | done].
Qed.

(** A list has one statistical median. *)
Lemma statistical_median_unique (data : list Q) (m m' : Q) :
  statistical_median data m → statistical_median data m' → (m == m')%Q.
Proof.
  intros (_ & Hodd & Heven) (_ & Hodd' & Heven').
  pose proof (Nat.mod_upper_bound (length data) 2) as Hmod.
  destruct (decide (length data mod 2 = 1)%nat) as [H1 | H1].
  - destruct (Hodd H1) as (x & Hx & ->), (Hodd' H1) as (x' & Hx' & ->).
    by eapply order_statistic_unique.
  - assert (length data mod 2 = 0)%nat as H0 by lia.
    destruct (Heven H0) as (a & b & Ha & Hb & ->).
    destruct (Heven' H0) as (a' & b' & Ha' & Hb' & ->).
    rewrite (order_statistic_unique _ _ _ _ Ha Ha').
    by rewrite (order_statistic_unique _ _ _ _ Hb Hb').
Qed.

(** X15.  The count and the median of the summary do not depend on the
    order of the records: two lists with the same records give the same
    number of files and the same median. *)
Theorem print_summary_permutation (records records' : list FileRecord) :
  records ≡ₚ records' →
  ∃ s s',
    print_summary records = Ok s ∧
    print_summary records' = Ok s' ∧
    total_files s = total_files s' ∧
    (median_size_kb s == median_size_kb s')%Q.
Proof.
  intros Hperm.
  destruct (print_summary_Ok records) as (m & Hsum & Hmed & Hzero).
  destruct (print_summary_Ok records') as (m' & Hsum' & Hmed' & Hzero').
  assert (length records = length records') as Hlen by (by rewrite Hperm).
  assert (filter (λ x, (0 < x)%Q) (map size_kb records)
          ≡ₚ filter (λ x, (0 < x)%Q) (map size_kb records')) as Hpos
    by (by rewrite Hperm).
  eexists _, _. split; [exact Hsum |]. split; [exact Hsum' |]. simpl.
  split; [done |].
  destruct (filter (λ x, (0 < x)%Q) (map size_kb records))
    as [| x l] eqn:Hsv.
  - apply Permutation_nil_l in Hpos.
    rewrite (Hzero eq_refl), (Hzero' (eq_sym Hpos)). reflexivity.
  - assert (filter (λ x, (0 < x)%Q) (map size_kb records') ≠ []) as Hne'.
    { intros Hnil. rewrite Hnil in Hpos.
      by apply Permutation_nil_r in Hpos. }
    destruct (median_statistical (x :: l)) as (m1 & Hm1 & Hstat1); [done |].
    destruct (median_statistical _ Hne') as (m2 & Hm2 & Hstat2).
    rewrite Hmed in Hm1 by done. rewrite (Hmed' Hne') in Hm2.
    injection Hm1 as <-. injection Hm2 as <-.
    apply (statistical_median_unique
             (filter (λ x, (0 < x)%Q) (map size_kb records'))); [| done].
    by apply (statistical_median_Permutation (x :: l)).
Qed.

Lemma print_summary_permutation_witness :
  ∃ s s',
    print_summary example_records = Ok s ∧
    print_summary (reverse example_records) = Ok s' ∧
    total_files s = total_files s' ∧
    (median_size_kb s == median_size_kb s')%Q.
Proof.
  apply (print_summary_permutation example_records (reverse example_records)).
  symmetry. apply reverse_Permutation.
Defined.

(** ** The breakdown by extension *)

Lemma labelled_cons ext r records :
  labelled ext (r :: records)
  = if decide (extension_label r = ext) then r :: labelled ext records
    else labelled ext records.
Proof. unfold labelled. by rewrite filter_cons. Qed.

(** The two dictionaries after the loop. *)
Lemma breakdown_loop_lookup (records : list FileRecord) :
  ∀ (counts : gmap string nat) (sizes : gmap string Q) counts' sizes',
    breakdown_loop records counts sizes = (counts', sizes') →
    ∀ ext,
      default 0%nat (counts' !! ext)
      = (default 0 (counts !! ext) + length (labelled ext records))%nat ∧
      (default 0 (sizes' !! ext)
       == default 0 (sizes !! ext)
          + total (map size_kb (labelled ext records)))%Q ∧
      (is_Some (counts' !! ext)
       ↔ is_Some (counts !! ext) ∨ labelled ext records ≠ []).
Proof.
  induction records as [| r records IH]; intros counts sizes counts' sizes'.
  - simpl. intros [= <- <-] ext. split; [lia |]. split; [simpl; lra |].
    split; [by left | by intros [? | ?]].
  - simpl. intros Hloop ext.
    destruct (IH _ _ _ _ Hloop ext) as (Hcount & Hsize & Hdom).
    rewrite Hcount, Hsize, Hdom, labelled_cons, !lookup_insert.
    destruct (decide (extension_label r = ext)) as [-> | Hne]; simpl.
    + split; [lia |]. split; [lra |].
      split; [by right | by left].
    + done.
Qed.

Lemma String_le_antisym (s1 s2 : string) :
  String.le s1 s2 → String.le s2 s1 → s1 = s2.
Proof. apply (anti_symm String.le). Qed.

(** The rows, read off the input. *)
Lemma print_extensions_breakdown_rows (records : list FileRecord) :
  ∃ labels,
    print_extensions_breakdown records
    = map (λ ext, (ext, length (labelled ext records),
                   (default 0 ((breakdown_loop records ∅ ∅).2 !! ext)
                    / 1024)%Q)) labels ∧
    StronglySorted String.le labels ∧
    NoDup labels ∧
    (∀ ext, ext ∈ labels ↔ ∃ r, r ∈ records ∧ extension_label r = ext) ∧
    (∀ ext, (default 0 ((breakdown_loop records ∅ ∅).2 !! ext)
             == total (map size_kb (labelled ext records)))%Q).
Proof.
  unfold print_extensions_breakdown.
  destruct (breakdown_loop records ∅ ∅) as [counts sizes] eqn:Hloop.
  pose proof (breakdown_loop_lookup records ∅ ∅ counts sizes Hloop) as Hlookup.
  set (labels := merge_sort String.le (map fst (map_to_list counts))).
  assert (labels ≡ₚ map fst (map_to_list counts)) as Hperm
    by apply merge_sort_Permutation.
  exists labels. split; [| split; [| split; [| split]]].
  - apply map_ext. intros ext. f_equal. f_equal.
    destruct (Hlookup ext) as (-> & _). by rewrite lookup_empty.
  - apply StronglySorted_merge_sort; apply _.
  - rewrite Hperm. apply NoDup_fst_map_to_list.
  - intros ext. rewrite Hperm.
    destruct (Hlookup ext) as (_ & _ & Hdom).
    rewrite lookup_empty in Hdom.
    rewrite list_elem_of_fmap. split.
    + intros ([ext' n] & -> & Hin%elem_of_map_to_list). simpl in *.
      destruct Hdom as [[Hsome | Hne] _]; [by eexists | by destruct Hsome |].
      destruct (labelled ext' records) as [| r rest] eqn:Hlab; [done |].
      exists r.
      assert (r ∈ labelled ext' records) as Hr by (rewrite Hlab; left).
      unfold labelled in Hr. rewrite list_elem_of_filter in Hr. tauto.
    + intros (r & Hr & Hext).
      destruct Hdom as [_ [n Hn]].
      { right. intros Hnil.
        assert (r ∈ labelled ext records) as Hin
          by (unfold labelled; by rewrite list_elem_of_filter).
        rewrite Hnil in Hin. by apply elem_of_nil in Hin. }
      exists (ext, n). split; [done |]. by apply elem_of_map_to_list.
  - intros ext. destruct (Hlookup ext) as (_ & Hsize & _).
    rewrite Hsize, lookup_empty. simpl. lra.
Qed.

Lemma sum_list_indicator (labels : list string) (k : string) :
  NoDup labels → k ∈ labels →
  sum_list (map (λ ext, if decide (k = ext) then 1 else 0)%nat labels) = 1%nat.
Proof.
  induction 1 as [| a labels Hnotin _ IH]; [by intros ?%elem_of_nil |].
  intros [-> | Hin]%elem_of_cons; simpl.
  - rewrite decide_True by done.
    assert (sum_list (map (λ ext, if decide (a = ext) then 1 else 0)%nat
                        labels) = 0%nat) as ->; [| done].
    clear IH. induction labels as [| b labels IH]; [done |].
    apply not_elem_of_cons in Hnotin as [Hne Hnotin].
    simpl. rewrite decide_False by done. by apply IH.
  - rewrite decide_False by (intros ->; done). by apply IH.
Qed.

Lemma sum_list_plus {A} (f h : A → nat) (l : list A) :
  sum_list (map (λ x, f x + h x)%nat l)
  = (sum_list (map f l) + sum_list (map h l))%nat.
Proof. induction l as [| a l IH]; simpl; lia. Qed.

(** Every record falls under one label: the counts of the labels add up
    to the number of records. *)
Lemma labelled_counts_sum (labels : list string) (records : list FileRecord) :
  NoDup labels →
  (∀ r, r ∈ records → extension_label r ∈ labels) →
  sum_list (map (λ ext, length (labelled ext records)) labels)
  = length records.
Proof.
  intros Hnodup. induction records as [| r records IH]; intros Hall.
  - simpl. clear. induction labels as [| a labels IHl]; [done | exact IHl].
  - rewrite (map_ext _ (λ ext, (if decide (extension_label r = ext)
                                 then 1 else 0)
                                + length (labelled ext records))%nat).
    + rewrite sum_list_plus, sum_list_indicator, IH; [done | |done |].
      * intros r' Hr'. apply Hall. by right.
      * apply Hall. left.
    + intros ext. rewrite labelled_cons. by destruct (decide _).
Qed.


(** X17.  A row of the breakdown counts the records of its label, at least
    one, and its size is the sum of their sizes divided by 1024. *)
Theorem print_extensions_breakdown_row (records : list FileRecord)
    (ext : string) (count : nat) (size_mb : Q) :
  (ext, count, size_mb) ∈ print_extensions_breakdown records →
  count = length (labelled ext records) ∧
  (1 ≤ count)%nat ∧
  (size_mb * 1024 == total (map size_kb (labelled ext records)))%Q.
Proof.
  destruct (print_extensions_breakdown_rows records)
    as (labels & -> & _ & _ & Hlabels & Hsizes).
  intros (ext' & [= -> -> ->] & Hin)%list_elem_of_fmap.
  split; [done |]. split.
  - apply Hlabels in Hin as (r & Hr & Hext).
    assert (r ∈ labelled ext' records) as Hlab
      by (unfold labelled; by rewrite list_elem_of_filter).
    destruct (labelled ext' records); [by apply elem_of_nil in Hlab |].
    simpl. lia.
  - rewrite <- Hsizes. field.
Qed.

Lemma print_extensions_breakdown_row_witness :
  2%nat = length (labelled ".pdf" example_records) ∧
  (1 ≤ 2)%nat ∧
  ((47 # 2048) * 1024
   == total (map size_kb (labelled ".pdf" example_records)))%Q.
Proof.
  apply (print_extensions_breakdown_row example_records ".pdf" 2 (47 # 2048)).
  vm_compute. right. left.
Defined.

(** X18.  The breakdown counts every record once: the counts of its rows
    add up to the number of files of the summary, which is the number of
    records. *)
Theorem print_extensions_breakdown_counts (records : list FileRecord) :
  ∃ s,
    print_summary records = Ok s ∧
    sum_list (map (λ row, row.1.2) (print_extensions_breakdown records))
    = total_files s ∧
    total_files s = length records.
Proof.
  destruct (print_summary_Ok records) as (m & Hsum & _).
  eexists. split; [exact Hsum |]. simpl.
  destruct (print_extensions_breakdown_rows records)
    as (labels & -> & _ & Hnodup & Hlabels & _).
  assert (∀ r, r ∈ records → extension_label r ∈ labels) as Hall
    by (intros r Hr; apply Hlabels; by exists r).
  rewrite !map_map. simpl. split; [| done].
  by apply labelled_counts_sum.
Qed.

(** ** The [csv] writer loses nothing *)

Lemma str_app_nil_r s : s +:+ EmptyString = s.
Proof.
  induction s as [| a s IH]; [done |]. by rewrite str_app_cons, IH.
Qed.

Lemma concat_app (xs ys : list string) :
  Fmt.concat (xs ++ ys) = Fmt.concat xs +:+ Fmt.concat ys.
Proof.
  induction xs as [| x xs IH]; cbn [app Fmt.concat]; [done |].
  by rewrite IH, str_app_assoc.
Qed.

Lemma mjoin_cons {A} (xs : list A) (xss : list (list A)) :
  mjoin (xs :: xss) = xs ++ mjoin xss.
Proof. reflexivity. Qed.

Lemma ascii_eqb_sym (a b : ascii) : Ascii.eqb a b = Ascii.eqb b a.
Proof. destruct (Ascii.eqb_spec a b), (Ascii.eqb_spec b a); congruence. Qed.

Lemma special_false c :
  Csv.special c = false →
  Ascii.eqb c Csv.delimiter = false ∧ Ascii.eqb c Csv.quotechar = false ∧
  Ascii.eqb c Csv.CR = false ∧ Ascii.eqb c Csv.LF = false.
Proof.
  unfold Csv.special, Csv.lineterminator. cbn [Str.elem].
  rewrite (ascii_eqb_sym Csv.CR c), (ascii_eqb_sym Csv.LF c).
  destruct (Ascii.eqb c Csv.delimiter), (Ascii.eqb c Csv.quotechar),
    (Ascii.eqb c Csv.CR), (Ascii.eqb c Csv.LF); done.
Qed.

Lemma double_quotes_id f :
  Csv.needs_quotes f = false → Csv.double_quotes f = f.
Proof.
  induction f as [| c f IH]; [done |].
  cbn [Csv.needs_quotes Csv.double_quotes].
  intros [Hc Hf]%orb_false_iff.
  apply special_false in Hc as (_ & -> & _ & _). by rewrite IH.
Qed.

Section CsvFacts.

Import CsvRead.

Lemma run_InField f pre r0 acc rest :
  Csv.needs_quotes f = false →
  run {| st := InField; field := pre; row := r0; rows := acc |} (f +:+ rest)
  = run {| st := InField; field := pre +:+ f; row := r0; rows := acc |} rest.
Proof.
  revert pre. induction f as [| c f IH]; intros pre Hq.
  - by rewrite str_app_nil, str_app_nil_r.
  - cbn [Csv.needs_quotes] in Hq. apply orb_false_iff in Hq as [Hc Hq].
    apply special_false in Hc as (Hd & Hqc & Hcr & Hlf).
    rewrite str_app_cons. cbn [run step st field row rows].
    rewrite Hd, Hcr, Hqc, Hlf. cbn [orb].
    rewrite IH by done. unfold push.
    by rewrite str_app_assoc, str_app_cons, str_app_nil.
Qed.

Lemma run_InQuoted f pre r0 acc rest :
  run {| st := InQuoted; field := pre; row := r0; rows := acc |}
      (Csv.double_quotes f +:+ String Csv.quotechar rest)
  = run {| st := QuoteInQuoted; field := pre +:+ f; row := r0; rows := acc |}
        rest.
Proof.
  revert pre. induction f as [| c f IH]; intros pre.
  - cbn [Csv.double_quotes]. rewrite str_app_nil, str_app_nil_r.
    cbn [run step st field row rows]. by rewrite Ascii.eqb_refl.
  - cbn [Csv.double_quotes]. destruct (Ascii.eqb c Csv.quotechar) eqn:Hc.
    + apply Ascii.eqb_eq in Hc as ->. rewrite !str_app_cons.
      cbn [run step st field row rows]. rewrite Ascii.eqb_refl.
      cbn [run step st field row rows]. rewrite Ascii.eqb_refl.
      rewrite IH. unfold push.
      by rewrite str_app_assoc, str_app_cons, str_app_nil.
    + rewrite str_app_cons. cbn [run step st field row rows]. rewrite Hc.
      rewrite IH. unfold push.
      by rewrite str_app_assoc, str_app_cons, str_app_nil.
Qed.

Lemma run_field f d r0 acc rest :
  d = Csv.delimiter ∨ d = Csv.CR →
  run {| st := StartField; field := EmptyString; row := r0; rows := acc |}
      (Csv.write_field f +:+ String d rest)
  = run {| st := if Ascii.eqb d Csv.delimiter then StartField else AfterCR;
           field := EmptyString; row := r0 ++ [f]; rows := acc |} rest.
Proof.
  intros Hd. unfold Csv.write_field.
  destruct (Csv.needs_quotes f) eqn:Hq.
  - rewrite str_app_cons, str_app_assoc, str_app_cons, str_app_nil.
    cbn [run step st field row rows]. unfold start_field.
    rewrite Ascii.eqb_refl.
    rewrite run_InQuoted, str_app_nil.
    by destruct Hd as [-> | ->].
  - rewrite double_quotes_id by done.
    destruct f as [| c f].
    + rewrite str_app_nil. by destruct Hd as [-> | ->].
    + cbn [Csv.needs_quotes] in Hq. apply orb_false_iff in Hq as [Hc Hq].
      apply special_false in Hc as (Hcd & Hqc & Hcr & Hlf).
      rewrite str_app_cons. cbn [run step st field row rows].
      unfold start_field. rewrite Hcd, Hcr, Hqc, Hlf.
      rewrite run_InField by done. rewrite str_app_cons, str_app_nil.
      by destruct Hd as [-> | ->].
Qed.

Lemma run_fields flds r0 acc rest :
  flds ≠ [] →
  run {| st := StartField; field := EmptyString; row := r0; rows := acc |}
      (Csv.join (map Csv.write_field flds) +:+ Csv.lineterminator +:+ rest)
  = run (start (acc ++ [r0 ++ flds])) rest.
Proof.
  revert r0. induction flds as [| f flds IH]; intros r0 Hne; [done |].
  destruct flds as [| f2 flds].
  - cbn [map Csv.join]. unfold Csv.lineterminator.
    rewrite !str_app_cons, str_app_nil.
    by rewrite run_field by (by right).
  - change (Csv.join (map Csv.write_field (f :: f2 :: flds)))
      with (Csv.write_field f +:+
            String Csv.delimiter
              (Csv.join (map Csv.write_field (f2 :: flds)))).
    rewrite str_app_assoc, str_app_cons.
    rewrite run_field by (by left).
    change (Ascii.eqb Csv.delimiter Csv.delimiter) with true. cbv iota.
    rewrite IH by done. by rewrite <- app_assoc.
Qed.

Lemma write_field_head f :
  (Csv.write_field f = EmptyString ∧ f = EmptyString) ∨
  ∃ c s, Csv.write_field f = String c s ∧ Ascii.eqb c Csv.CR = false.
Proof.
  unfold Csv.write_field. destruct (Csv.needs_quotes f) eqn:Hq.
  - right. by eexists _, _.
  - rewrite double_quotes_id by done. destruct f as [| c f]; [by left |].
    right. exists c, f. split; [done |].
    cbn [Csv.needs_quotes] in Hq. apply orb_false_iff in Hq as [Hc _].
    by apply special_false in Hc as (_ & _ & ? & _).
Qed.

Lemma join_head f flds :
  (Csv.join (map Csv.write_field (f :: flds)) = EmptyString ∧
   f = EmptyString ∧ flds = []) ∨
  ∃ c s, Csv.join (map Csv.write_field (f :: flds)) = String c s ∧
         Ascii.eqb c Csv.CR = false.
Proof.
  destruct flds as [| f2 flds].
  - cbn [map Csv.join].
    destruct (write_field_head f) as [[-> ->] | (c & s & -> & Hc)];
      [by left | right; by exists c, s].
  - right.
    change (Csv.join (map Csv.write_field (f :: f2 :: flds)))
      with (Csv.write_field f +:+
            String Csv.delimiter
              (Csv.join (map Csv.write_field (f2 :: flds)))).
    destruct (write_field_head f) as [[-> _] | (c & s & -> & Hc)].
    + rewrite str_app_nil. by eexists _, _.
    + rewrite str_app_cons. by eexists _, _.
Qed.

Lemma run_start_field c text acc :
  Ascii.eqb c Csv.CR = false →
  run (start acc) (String c text)
  = run {| st := StartField; field := EmptyString; row := [];
           rows := acc |} (String c text).
Proof.
  intros Hc. unfold start. cbn [run step st field row rows]. by rewrite Hc.
Qed.

Lemma run_writerow r acc rest :
  run (start acc) (Csv.writerow r +:+ rest) = run (start (acc ++ [r])) rest.
Proof.
  destruct r as [| f flds]; [done |].
  unfold Csv.writerow.
  destruct (join_head f flds) as [(-> & -> & ->) | (c & s & Hjoin & Hc)];
    [done |].
  assert ((0 <? length (f :: flds))%nat &&
          (String.length (Csv.join (map Csv.write_field (f :: flds))) =? 0)%nat
          = false) as -> by (by rewrite Hjoin).
  rewrite str_app_assoc.
  rewrite Hjoin at 1. rewrite str_app_cons, run_start_field by done.
  rewrite <- str_app_cons, <- Hjoin.
  by rewrite run_fields.
Qed.

Lemma run_writerows rs acc :
  run (start acc) (Fmt.concat (map Csv.writerow rs)) = Some (acc ++ rs).
Proof.
  revert acc. induction rs as [| r rs IH]; intros acc.
  - by rewrite app_nil_r.
  - cbn [map Fmt.concat]. rewrite run_writerow, IH.
    by rewrite <- app_assoc.
Qed.

End CsvFacts.

Lemma read_writerows (rs : list (list string)) :
  CsvRead.read (Fmt.concat (map Csv.writerow rs)) = Some rs.
Proof. unfold CsvRead.read. by rewrite run_writerows. Qed.

Lemma writerows_inj (rs1 rs2 : list (list string)) :
  Fmt.concat (map Csv.writerow rs1) = Fmt.concat (map Csv.writerow rs2) →
  rs1 = rs2.
Proof.
  intros H. pose proof (read_writerows rs1) as H1.
  rewrite H, read_writerows in H1. congruence.
Qed.

Lemma write_csv_rows (records : list FileRecord) :
  write_csv records
  = Fmt.concat (map Csv.writerow (csv_header :: map record_row records)).
Proof.
  unfold write_csv. cbn [map Fmt.concat]. by rewrite map_map.
Qed.

Lemma write_duplicates_csv_rows (duplicates : list (key * list FileRecord)) :
  write_duplicates_csv duplicates
  = Fmt.concat
      (map Csv.writerow (duplicates_header :: duplicates_rows duplicates)).
Proof.
  unfold write_duplicates_csv, duplicates_rows. cbn [map Fmt.concat].
  f_equal.
  induction duplicates as [| item duplicates IH]; [done |].
  cbn [map Fmt.concat]. rewrite mjoin_cons, map_app, concat_app, <- IH.
  by rewrite map_map.
Qed.

Lemma write_csv_inj (records records' : list FileRecord) :
  write_csv records = write_csv records' →
  map record_row records = map record_row records'.
Proof.
  rewrite !write_csv_rows. intros H%writerows_inj. congruence.
Qed.

(** X19: the file [write_csv] writes determines the rows it was written
    from: two record lists give the same text only if their rows (the five
    fields of each record, the size as formatted) are the same, in the same
    order.  No comma, quote or line break inside a field can shift a field
    or row boundary. *)
Theorem write_csv_injective (records records' : list FileRecord) :
  write_csv records = write_csv records' →
  map record_row records = map record_row records'.
Proof. apply write_csv_inj. Qed.

Lemma write_csv_injective_witness :
  map record_row [example_record "a,b.bin" ".bin" (12001 # 1000) "/r"]
  = map record_row [example_record "a,b.bin" ".bin" (12002 # 1000) "/r"].
Proof. apply write_csv_injective. vm_compute. reflexivity. Defined.

(** X20: the file [write_duplicates_csv] writes determines its rows: the
    text of the group key followed by the five fields of the member, one row
    for each member of each group, group after group. *)
Theorem write_duplicates_csv_injective
    (duplicates duplicates' : list (key * list FileRecord)) :
  write_duplicates_csv duplicates = write_duplicates_csv duplicates' →
  duplicates_rows duplicates = duplicates_rows duplicates'.
Proof.
  rewrite !write_duplicates_csv_rows. intros H%writerows_inj. congruence.
Qed.

Lemma write_duplicates_csv_injective_witness :
  duplicates_rows
    [(inr "report.pdf",
      [example_record "Report.PDF" ".pdf" 11 "/a";
       example_record "report.pdf" ".pdf" (25 # 2) "/b"])]
  = duplicates_rows
      [(inr "report.pdf", [example_record "Report.PDF" ".pdf" 11 "/a"]);
       (inr "report.pdf", [example_record "report.pdf" ".pdf" (25 # 2) "/b"])].
Proof. apply write_duplicates_csv_injective. vm_compute. reflexivity. Defined.

(** *** The size column *)

Lemma string_of_uint_no_dot (d : Decimal.uint) :
  Str.elem "." (NilEmpty.string_of_uint d) = false.
Proof. induction d; simpl; auto. Qed.

Lemma str_N_no_dot (n : N) : Str.elem "." (Fmt.str_N n) = false.
Proof. apply string_of_uint_no_dot. Qed.

Lemma split_at_dot (a b x y : string) :
  Str.elem "." a = false → Str.elem "." b = false →
  a +:+ String "." x = b +:+ String "." y → a = b ∧ x = y.
Proof.
  revert b. induction a as [| c a IH]; intros [| c' b] Ha Hb;
    rewrite ?str_app_nil, ?str_app_cons; intros H.
  - by injection H as ->.
  - injection H as <- _. cbn [Str.elem] in Hb.
    by rewrite Ascii.eqb_refl in Hb.
  - injection H as -> _. cbn [Str.elem] in Ha.
    by rewrite Ascii.eqb_refl in Ha.
  - injection H as -> H. cbn [Str.elem] in Ha, Hb.
    apply orb_false_iff in Ha as [_ Ha]. apply orb_false_iff in Hb as [_ Hb].
    destruct (IH b Ha Hb H) as [-> ->]. done.
Qed.

(** Reading a decimal numeral back, leading zeros allowed. *)
Lemma read_padded (k : nat) (n : N) :
  N.of_uint <$> NilEmpty.uint_of_string
                  (Fmt.repeat_char k "0" +:+ Fmt.str_N n) = Some n.
Proof.
  induction k as [| k IH].
  - cbn [Fmt.repeat_char]. rewrite str_app_nil. unfold Fmt.str_N.
    rewrite NilEmpty.usu. cbn. by rewrite DecimalN.Unsigned.of_to.
  - cbn [Fmt.repeat_char]. rewrite str_app_cons.
    cbn [NilEmpty.uint_of_string].
    destruct (NilEmpty.uint_of_string (Fmt.repeat_char k "0" +:+ Fmt.str_N n))
      as [d |]; [| done].
    exact IH.
Qed.

Lemma rjust_str_N_inj (w : nat) (a b : N) :
  Fmt.rjust w "0" (Fmt.str_N a) = Fmt.rjust w "0" (Fmt.str_N b) → a = b.
Proof.
  unfold Fmt.rjust. intros H.
  pose proof (read_padded (w - String.length (Fmt.str_N a)) a) as Ha.
  rewrite H, read_padded in Ha. congruence.
Qed.

Lemma str_N_inj (a b : N) : Fmt.str_N a = Fmt.str_N b → a = b.
Proof.
  intros H. pose proof (read_padded 0 a) as Ha.
  cbn [Fmt.repeat_char] in Ha. rewrite str_app_nil, H in Ha.
  pose proof (read_padded 0 b) as Hb.
  cbn [Fmt.repeat_char] in Hb. rewrite str_app_nil in Hb. congruence.
Qed.

(** The text of a non-negative whole number of hundredths. *)
Lemma format_f_hundredths (h : Z) :
  0 ≤ h →
  Fmt.format_f 2 (inject_Z h / inject_Z 100)
  = Fmt.str_N (Z.to_N h / 100) +:+
    String "." (Fmt.rjust 2 "0" (Fmt.str_N (Z.to_N h mod 100))).
Proof.
  intros Hh. unfold Fmt.format_f.
  change (Z.to_N (10 ^ Z.of_nat 2)) with 100%N.
  change (2 =? 0)%nat with false. cbv iota.
  assert (0 <= inject_Z h / inject_Z 100)%Q as Hpos.
  { apply Qle_shift_div_l; [done |]. rewrite Qmult_0_l.
    change 0%Q with (inject_Z 0). by rewrite <- Zle_Qle. }
  assert (Num.round (Qabs (inject_Z h / inject_Z 100) *
                     inject_Z (Z.of_N 100)) = h) as ->.
  { apply round_eq_iff. left.
    assert (Qabs (inject_Z h / inject_Z 100) * inject_Z (Z.of_N 100)
            == inject_Z h)%Q as ->.
    { rewrite Qabs_pos by done. change (inject_Z (Z.of_N 100)) with 100%Q.
      change (inject_Z 100) with 100%Q. field. }
    apply Qabs_Qlt_condition. split; lra. }
  assert (Num.ltb (inject_Z h / inject_Z 100) 0 = false) as ->
    by (by apply ltb_false_iff).
  by rewrite str_app_nil.
Qed.

Lemma format_f_hundredths_inj (h h' : Z) :
  0 ≤ h → 0 ≤ h' →
  Fmt.format_f 2 (inject_Z h / inject_Z 100)
  = Fmt.format_f 2 (inject_Z h' / inject_Z 100) →
  h = h'.
Proof.
  intros Hh Hh'. rewrite !format_f_hundredths by done.
  intros [Hq%str_N_inj Hr%rjust_str_N_inj]%split_at_dot;
    [| apply str_N_no_dot ..].
  assert (Z.to_N h = Z.to_N h') as Hn.
  { rewrite (N.div_mod (Z.to_N h) 100), (N.div_mod (Z.to_N h') 100) by done.
    by rewrite Hq, Hr. }
  lia.
Qed.

Lemma size_of_bytes_hundredths (n : N) :
  ∃ h, 0 ≤ h ∧ size_of_bytes n = (inject_Z h / inject_Z 100)%Q.
Proof.
  set (x := (inject_Z (Z.of_N n) / 1024)%Q).
  exists (Num.round (x * inject_Z 100)). split; [| done].
  assert (0 <= x)%Q as Hx.
  { unfold x. apply Qle_shift_div_l; [done |]. rewrite Qmult_0_l.
    change 0%Q with (inject_Z 0). rewrite <- Zle_Qle. lia. }
  destruct (round_nearest_even (x * inject_Z 100)) as [H | [H _]].
  - apply Qabs_Qlt_condition in H as [_ H].
    change (inject_Z 100) with 100%Q in *.
    set (h := Num.round (x * 100)) in *.
    assert (inject_Z (-1) < inject_Z h)%Q as Hlt
      by (change (inject_Z (-1)) with (-1)%Q; lra).
    rewrite <- Zlt_Qlt in Hlt. lia.
  - assert (Qabs (x * inject_Z 100 - inject_Z (Num.round (x * inject_Z 100)))
            <= 1 # 2)%Q as Hle by (by rewrite H).
    apply Qabs_Qle_condition in Hle as [_ Hle].
    change (inject_Z 100) with 100%Q in *.
    set (h := Num.round (x * 100)) in *.
    assert (inject_Z (-1) < inject_Z h)%Q as Hlt
      by (change (inject_Z (-1)) with (-1)%Q; lra).
    rewrite <- Zlt_Qlt in Hlt. lia.
Qed.

Lemma scan_folder_sizes (g : Globals) (fs : FileSystem)
    (folder_path : string) (records : list FileRecord) :
  scan_folder g fs folder_path = Ok records →
  Forall (λ r, ∃ n, size_kb r = size_of_bytes n) records.
Proof.
  apply scan_folder_Forall.
  intros root fn r (n & ts & lm & _ & _ & _ & _ & ->)%try_block_Some.
  by exists n.
Qed.

Lemma record_row_inj (r r' : FileRecord) :
  (∃ n, size_kb r = size_of_bytes n) →
  (∃ n, size_kb r' = size_of_bytes n) →
  record_row r = record_row r' → r = r'.
Proof.
  intros [n Hn] [n' Hn'].
  destruct (size_of_bytes_hundredths n) as (h & Hh & Hs).
  destruct (size_of_bytes_hundredths n') as (h' & Hh' & Hs').
  destruct r as [fn fp ext sz lm], r' as [fn' fp' ext' sz' lm'].
  cbn [size_kb] in Hn, Hn'. unfold record_row.
  cbn [filename full_path extension size_kb last_modified].
  intros H. injection H as -> -> -> Hf ->.
  rewrite Hn, Hn', Hs, Hs' in Hf.
  apply format_f_hundredths_inj in Hf; [| done ..].
  f_equal. rewrite Hn, Hn', Hs, Hs'. by rewrite Hf.
Qed.

(** X21: the report of a scan loses nothing.  The sizes [scan_folder]
    stores are already rounded to two decimals, so the two decimals
    [write_csv] prints are all of them: two scans whose reports have the
    same text returned the same records. *)
Theorem scan_folder_write_csv_lossless (g g' : Globals) (fs fs' : FileSystem)
    (folder_path folder_path' : string) (records records' : list FileRecord) :
  scan_folder g fs folder_path = Ok records →
  scan_folder g' fs' folder_path' = Ok records' →
  write_csv records = write_csv records' →
  records = records'.
Proof.
  intros Hs%scan_folder_sizes Hs'%scan_folder_sizes Hrows%write_csv_inj.
  revert records' Hs' Hrows.
  induction Hs as [| r records Hr Hs IH]; intros [| r' records'] Hs' Hrows;
    [done | done | done |].
  apply Forall_cons in Hs' as [Hr' Hs'].
  cbn [map] in Hrows. apply (inj2 cons) in Hrows as [Hrow Hrows].
  f_equal; [apply record_row_inj; [exact Hr | exact Hr' | exact Hrow] |].
  by apply IH.
Qed.

Lemma scan_folder_write_csv_lossless_witness :
  ∃ records records',
    scan_folder module_globals example_fs "/r" = Ok records ∧
    scan_folder {| MIN_SIZE_KB := 20; RECURSIVE := true |} example_fs "/r"
    = Ok records' ∧
    records = records'.
Proof.
  eexists _, _. split; [reflexivity |]. split; [reflexivity |].
  eapply (scan_folder_write_csv_lossless module_globals
            {| MIN_SIZE_KB := 20; RECURSIVE := true |} example_fs example_fs
            "/r" "/r");
    [reflexivity | reflexivity | vm_compute; reflexivity].
Defined.

(** ** The order of the groups *)

Lemma first_occurrences_elem_of (k : key) (ks : list key) :
  k ∈ first_occurrences ks ↔ k ∈ ks.
Proof.
  induction ks as [| a ks IH]; [done |].
  cbn [first_occurrences]. rewrite !elem_of_cons, list_elem_of_filter, IH.
  destruct (decide (k = a)) as [-> | Hne]; [tauto |]. tauto.
Qed.

Lemma first_occurrences_NoDup (ks : list key) : NoDup (first_occurrences ks).
Proof.
  induction ks as [| a ks IH]; [constructor |].
  cbn [first_occurrences]. constructor.
  - rewrite list_elem_of_filter. tauto.
  - by apply NoDup_filter.
Qed.

Lemma first_occurrences_snoc (ks : list key) (k : key) :
  first_occurrences (ks ++ [k])
  = first_occurrences ks ++ (if decide (k ∈ ks) then [] else [k]).
Proof.
  induction ks as [| a ks IH]; [done |].
  cbn [app first_occurrences]. rewrite IH, filter_app. f_equal. f_equal.
  destruct (decide (k = a)) as [-> | Hne].
  - rewrite (decide_True (P := a ∈ a :: ks)) by left.
    destruct (decide (a ∈ ks)); [done |].
    rewrite filter_cons, decide_False; [done | tauto].
  - destruct (decide (k ∈ ks)) as [Hin | Hnin].
    + rewrite (decide_True (P := k ∈ a :: ks)) by (by right). done.
    + rewrite (decide_False (P := k ∈ a :: ks))
        by (rewrite elem_of_cons; tauto).
      by rewrite filter_cons, decide_True.
Qed.

Lemma members_snoc mode k r records :
  members mode k (records ++ [r])
  = members mode k records
    ++ (if decide (group_key mode r = Ok k) then [r] else []).
Proof.
  unfold members. rewrite filter_app. reflexivity.
Qed.

Lemma members_nil_not_key mode k records ks :
  Forall2 (λ r k', group_key mode r = Ok k') records ks →
  k ∉ ks → members mode k records = [].
Proof.
  intros Hks Hk. unfold members. apply filter_nil_Forall.
  induction Hks as [| r k' records ks Hr Hks IH]; [constructor |].
  apply not_elem_of_cons in Hk as [Hne Hk].
  constructor; [| by apply IH].
  rewrite Hr. intros [= ->]. done.
Qed.

Lemma map_ext_elem_of {A B} (f g : A → B) (l : list A) :
  (∀ x, x ∈ l → f x = g x) → map f l = map g l.
Proof.
  induction l as [| a l IH]; intros H; [done |].
  cbn [map]. rewrite (H a) by left. f_equal. apply IH.
  intros x Hx. apply H. by right.
Qed.

Lemma append_item_map (f : key → list FileRecord) (l : list key)
    (k : key) (r : FileRecord) :
  NoDup l → (k ∉ l → f k = []) →
  append_item (map (λ k', (k', f k')) l) k r
  = map (λ k', (k', f k' ++ (if decide (k' = k) then [r] else [])))
        (l ++ (if decide (k ∈ l) then [] else [k])).
Proof.
  intros Hnd Hnil. induction Hnd as [| a l Ha Hnd IH].
  - cbn [map append_item app]. rewrite decide_False by apply not_elem_of_nil.
    cbn [map app]. rewrite decide_True by done.
    rewrite Hnil by apply not_elem_of_nil. done.
  - cbn [map append_item]. destruct (decide (a = k)) as [-> | Hne].
    + rewrite (decide_True (P := k ∈ k :: l)) by left.
      rewrite app_nil_r. cbn [map]. rewrite decide_True by done. f_equal.
      apply map_ext_elem_of. intros k' Hk'.
      rewrite decide_False; [by rewrite app_nil_r |].
      intros ->. done.
    + cbn [app map]. rewrite (decide_False (P := a = k)) by done.
      rewrite app_nil_r. f_equal.
      rewrite IH.
      * destruct (decide (k ∈ l)) as [Hin | Hnin].
        -- by rewrite (decide_True (P := k ∈ a :: l)) by (by right).
        -- rewrite (decide_False (P := k ∈ a :: l)); [done |].
           rewrite elem_of_cons. intros [-> | ?]; done.
      * intros Hk. apply Hnil. rewrite elem_of_cons. intros [-> | ?]; done.
Qed.

Lemma append_item_members mode done ks k r :
  Forall2 (λ r k', group_key mode r = Ok k') done ks →
  group_key mode r = Ok k →
  append_item (map (λ k', (k', members mode k' done)) (first_occurrences ks))
              k r
  = map (λ k', (k', members mode k' (done ++ [r])))
        (first_occurrences (ks ++ [k])).
Proof.
  intros Hks Hr.
  rewrite append_item_map.
  - rewrite first_occurrences_snoc.
    assert ((if decide (k ∈ first_occurrences ks) then [] else [k])
            = (if decide (k ∈ ks) then [] else [k])) as ->.
    { destruct (decide (k ∈ ks)) as [Hin | Hnin].
      - by rewrite decide_True by (by apply first_occurrences_elem_of).
      - rewrite decide_False; [done |].
        by rewrite first_occurrences_elem_of. }
    apply map_ext. intros k'. f_equal. rewrite members_snoc. f_equal.
    rewrite Hr.
    destruct (decide (k' = k)) as [-> | Hne].
    + by rewrite decide_True.
    + rewrite decide_False; [done |]. intros [= ->]. done.
  - apply first_occurrences_NoDup.
  - intros Hk. apply (members_nil_not_key mode k done ks Hks).
    by rewrite <- first_occurrences_elem_of.
Qed.

Lemma group_items_loop_members mode records ks' :
  Forall2 (λ r k, group_key mode r = Ok k) records ks' →
  ∀ done ks,
    Forall2 (λ r k, group_key mode r = Ok k) done ks →
    group_items_loop mode records
      (map (λ k, (k, members mode k done)) (first_occurrences ks))
    = Ok (map (λ k, (k, members mode k (done ++ records)))
              (first_occurrences (ks ++ ks'))).
Proof.
  induction 1 as [| r k records ks' Hr Hks' IH]; intros done ks Hks.
  - by rewrite !app_nil_r.
  - cbn [group_items_loop]. rewrite Hr. cbn [bind].
    rewrite (append_item_members mode done ks k r Hks Hr).
    rewrite IH.
    + by rewrite <- !app_assoc.
    + apply Forall2_app; [done |]. by constructor.
Qed.

Lemma find_duplicates_items_members mode records ks :
  Forall2 (λ r k, group_key mode r = Ok k) records ks →
  find_duplicates_items records mode
  = Ok (filter (λ kv, 1 < length kv.2)%nat
          (map (λ k, (k, members mode k records)) (first_occurrences ks))).
Proof.
  intros Hks. unfold find_duplicates_items.
  assert (Forall2 (λ r k, group_key mode r = Ok k) [] []) as Hnil
    by constructor.
  pose proof (group_items_loop_members mode records ks Hks [] [] Hnil) as H.
  cbn [first_occurrences map app] in H. by rewrite H.
Qed.

Lemma keys_exist mode records :
  mode = "size" ∨ mode = "name" →
  ∃ ks, Forall2 (λ r k, group_key mode r = Ok k) records ks.
Proof.
  intros Hmode. induction records as [| r records [ks IH]].
  - by exists [].
  - destruct (group_key_valid mode r Hmode) as [k Hk].
    exists (k :: ks). by constructor.
Qed.

(** X22: the dictionary [find_duplicates] returns lists its groups in the
    order in which their keys first occur among the records: its items are
    one entry per key, in that order, each with the records of that key in
    input order, and of these entries the ones with at least two records. *)
Theorem find_duplicates_items_order (records : list FileRecord)
    (mode : string) (ks : list key) :
  Forall2 (λ r k, group_key mode r = Ok k) records ks →
  find_duplicates_items records mode
  = Ok (filter (λ kv, 1 < length kv.2)%nat
          (map (λ k, (k, members mode k records)) (first_occurrences ks))).
Proof. apply find_duplicates_items_members. Qed.

Lemma find_duplicates_items_order_witness :
  find_duplicates_items
    (example_record "b.txt" ".txt" 30 "/a" :: example_records
     ++ [example_record "B.TXT" ".txt" 40 "/c"]) "name"
  = Ok (filter (λ kv, 1 < length kv.2)%nat
          (map (λ k, (k, members "name" k
                           (example_record "b.txt" ".txt" 30 "/a"
                            :: example_records
                            ++ [example_record "B.TXT" ".txt" 40 "/c"])))
               (first_occurrences
                  [inr "b.txt"; inr "report.pdf"; inr "notes.txt";
                   inr "report.pdf"; inr "report.pdf.bak"; inr "b.txt"]))).
Proof.
  apply find_duplicates_items_order.
  repeat constructor.
Defined.

(** ** [main] *)

Lemma io_bind_Ok {A B} (m : IO A) (k : A → IO B) w a w' :
  m w = (Ok a, w') → io_bind m k w = k a w'.
Proof. unfold io_bind. by intros ->. Qed.

Lemma acts_weaken m f suffix : acts m f suffix → acts m f EmptyString.
Proof.
  intros H w. destruct (H w) as [text ->].
  exists (text +:+ suffix). by rewrite str_app_nil_r.
Qed.

Lemma acts_print s : acts (print s) id (s +:+ newline).
Proof. intros w. by exists EmptyString. Qed.

Lemma acts_write_file path text :
  acts (write_file path text) (insert path text) EmptyString.
Proof.
  intros w. exists EmptyString. unfold write_file.
  by rewrite str_app_nil, str_app_nil_r.
Qed.

Lemma acts_bind (m : IO unit) (k : unit → IO unit) f g suffix suffix' :
  acts m f suffix' → (∀ x, acts (k x) g suffix) →
  acts (io_bind m k) (g ∘ f) suffix.
Proof.
  intros Hm Hk w. destruct (Hm w) as [t1 H1].
  destruct (Hk tt {| stdout := stdout w +:+ t1 +:+ suffix';
                     files := f (files w) |}) as [t2 H2].
  exists (t1 +:+ suffix' +:+ t2).
  rewrite (io_bind_Ok _ _ _ _ _ H1), H2. cbn [stdout files].
  by rewrite !str_app_assoc.
Qed.

Lemma acts_lift {A} (r : result A) (a : A) (k : A → IO unit) f suffix :
  r = Ok a → acts (k a) f suffix → acts (io_bind (lift r) k) f suffix.
Proof. intros -> Hk w. exact (Hk w). Qed.

Lemma acts_for_each {A} (xs : list A) (body : A → IO unit) :
  (∀ x, acts (body x) id EmptyString) →
  acts (for_each xs body) id EmptyString.
Proof.
  intros Hb. induction xs as [| x xs IH].
  - intros [out fl]. exists EmptyString. cbn. by rewrite str_app_nil_r.
  - cbn [for_each].
    apply (acts_bind _ _ id id EmptyString EmptyString);
      [apply Hb | intros _; apply IH].
Qed.

Lemma acts_print_summary records :
  acts (print_summary_io records) id EmptyString.
Proof.
  destruct (print_summary_Ok records) as (m & Hs & _).
  unfold print_summary_io. eapply acts_lift; [exact Hs |].
  repeat (eapply (acts_bind _ _ id id); [apply acts_print | intros _]).
  eapply acts_weaken, acts_print.
Qed.

Lemma acts_print_extensions_breakdown records :
  acts (print_extensions_breakdown_io records) id EmptyString.
Proof.
  unfold print_extensions_breakdown_io.
  repeat (eapply (acts_bind _ _ id id); [apply acts_print | intros _]).
  apply acts_for_each. intros row. eapply acts_weaken, acts_print.
Qed.

Lemma acts_print_duplicates duplicates mode :
  acts (print_duplicates duplicates mode) id EmptyString.
Proof.
  unfold print_duplicates. destruct duplicates as [| item duplicates].
  - eapply acts_weaken, acts_print.
  - repeat (eapply (acts_bind _ _ id id); [apply acts_print | intros _]).
    apply acts_for_each. intros it.
    eapply (acts_bind _ _ id id); [apply acts_print | intros _].
    apply acts_for_each. intros f. eapply acts_weaken, acts_print.
Qed.

Lemma find_duplicates_items_Ok records mode :
  mode = "size" ∨ mode = "name" →
  ∃ items, find_duplicates_items records mode = Ok items.
Proof.
  intros Hmode. destruct (keys_exist mode records Hmode) as [ks Hks].
  eexists. by apply find_duplicates_items_members.
Qed.

Lemma main_acts g fs records by_size by_name :
  scan_folder g fs folder_to_scan = Ok records →
  find_duplicates_items records "size" = Ok by_size →
  find_duplicates_items records "name" = Ok by_name →
  acts (main g fs)
       (λ fl, <["duplicates by name.csv" := write_duplicates_csv by_name]>
                (<["duplicates by size.csv" := write_duplicates_csv by_size]>
                   fl))
       ("CSV written to: folder_audit.csv" +:+ newline).
Proof.
  intros Hscan Hsize Hname.
  assert (∃ F, acts (main g fs) F
                 ("CSV written to: folder_audit.csv" +:+ newline) ∧
               F = (λ fl,
                      <["duplicates by name.csv" :=
                          write_duplicates_csv by_name]>
                        (<["duplicates by size.csv" :=
                             write_duplicates_csv by_size]> fl)))
    as (F & HF & ->); [| exact HF].
  eexists. split.
  - unfold main.
    eapply acts_bind; [apply acts_print | intros _].
    eapply acts_lift; [exact Hscan |].
    eapply acts_bind; [apply acts_print_summary | intros _].
    eapply acts_bind; [apply acts_print_extensions_breakdown | intros _].
    eapply acts_lift; [exact Hsize |].
    eapply acts_bind; [apply acts_print_duplicates | intros _].
    eapply acts_bind; [apply acts_write_file | intros _].
    eapply acts_lift; [exact Hname |].
    eapply acts_bind; [apply acts_print_duplicates | intros _].
    eapply acts_bind; [apply acts_write_file | intros _].
    eapply acts_bind; [apply acts_print | intros _].
    eapply acts_bind; [apply acts_print | intros _].
    apply acts_print.
  - reflexivity.
Qed.

(** X23: [main] fails only in the scan.  If [scan_folder] raises, [main]
    stops with that exception, having printed only its first line and
    written no file; if the scan returns, [main] returns: the summary, the
    breakdown, the two searches for duplicates and the two reports raise
    nothing. *)
Theorem main_fails_only_in_scan (g : Globals) (fs : FileSystem) (w : World) :
  match scan_folder g fs folder_to_scan with
  | Raise e =>
      main g fs w
      = (Raise e,
         {| stdout := stdout w +:+ "Starting folder audit..." +:+ newline;
            files := files w |})
  | Ok _ => (main g fs w).1 = Ok tt
  end.
Proof.
  destruct (scan_folder g fs folder_to_scan) as [records | e] eqn:Hscan.
  - destruct (find_duplicates_items_Ok records "size") as [by_size Hsize];
      [by left |].
    destruct (find_duplicates_items_Ok records "name") as [by_name Hname];
      [by right |].
    destruct (main_acts g fs records by_size by_name Hscan Hsize Hname w)
      as [text ->].
    reflexivity.
  - unfold main, io_bind, print, lift. by rewrite Hscan.
Qed.

(** X24: when the scan returns, [main] writes two files and no other:
    [duplicates by size.csv] and [duplicates by name.csv], holding the
    report of the groups by size and of the groups by name of the scanned
    records; every other file is as it was. *)
Theorem main_reports (g : Globals) (fs : FileSystem) (w : World)
    (records : list FileRecord) :
  scan_folder g fs folder_to_scan = Ok records →
  ∃ by_size by_name,
    find_duplicates_items records "size" = Ok by_size ∧
    find_duplicates_items records "name" = Ok by_name ∧
    files (main g fs w).2
    = <["duplicates by name.csv" := write_duplicates_csv by_name]>
        (<["duplicates by size.csv" := write_duplicates_csv by_size]>
           (files w)).
Proof.
  intros Hscan.
  destruct (find_duplicates_items_Ok records "size") as [by_size Hsize];
    [by left |].
  destruct (find_duplicates_items_Ok records "name") as [by_name Hname];
    [by right |].
  exists by_size, by_name. split; [done |]. split; [done |].
  destruct (main_acts g fs records by_size by_name Hscan Hsize Hname w)
    as [text ->].
  reflexivity.
Qed.

Lemma main_reports_witness :
  ∃ records,
    scan_folder module_globals example_fs folder_to_scan = Ok records ∧
    ∃ by_size by_name,
      find_duplicates_items records "size" = Ok by_size ∧
      find_duplicates_items records "name" = Ok by_name ∧
      files (main module_globals example_fs empty_world).2
      = <["duplicates by name.csv" := write_duplicates_csv by_name]>
          (<["duplicates by size.csv" := write_duplicates_csv by_size]>
             (files empty_world)).
Proof.
  eexists. split; [reflexivity |].
  apply main_reports. reflexivity.
Defined.

(** X25: [main] never writes [folder_audit.csv]: whatever the scan gives,
    that file is after [main] what it was before (absent, if it was
    absent), although the last line a run that returns prints is
    [CSV written to: folder_audit.csv]. *)
Theorem main_announces_unwritten_file (g : Globals) (fs : FileSystem)
    (w : World) :
  files (main g fs w).2 !! "folder_audit.csv" = files w !! "folder_audit.csv" ∧
  ((main g fs w).1 = Ok tt →
   ∃ text,
     stdout (main g fs w).2
     = stdout w +:+ text +:+ "CSV written to: folder_audit.csv" +:+ newline).
Proof.
  destruct (scan_folder g fs folder_to_scan) as [records | e] eqn:Hscan.
  - destruct (find_duplicates_items_Ok records "size") as [by_size Hsize];
      [by left |].
    destruct (find_duplicates_items_Ok records "name") as [by_name Hname];
      [by right |].
    destruct (main_acts g fs records by_size by_name Hscan Hsize Hname w)
      as [text ->].
    cbn [fst snd stdout files]. split; [| by exists text].
    by rewrite !lookup_insert_ne.
  - assert (main g fs w
            = (Raise e,
               {| stdout := stdout w +:+ "Starting folder audit..."
                            +:+ newline;
                  files := files w |})) as ->
      by (unfold main, io_bind, print, lift; by rewrite Hscan).
    cbn [fst snd files]. split; [done |]. intros [=].
Qed.

(** ** The dictionary and its items *)

Lemma fst_map_pair {A B} (f : A → B) (l : list A) :
  (map (λ k, (k, f k)) l).*1 = l.
Proof. induction l as [| a l IH]; [done |]. cbn. by rewrite IH. Qed.

Lemma elem_of_map_pair {A B} (f : A → B) (l : list A) (k : A) (v : B) :
  (k, v) ∈ map (λ k, (k, f k)) l ↔ v = f k ∧ k ∈ l.
Proof.
  induction l as [| a l IH].
  - cbn [map]. rewrite !elem_of_nil. tauto.
  - cbn [map]. rewrite !elem_of_cons, IH. split.
    + intros [[= -> ->] | [-> ?]]; tauto.
    + intros [-> [-> | ?]]; tauto.
Qed.

(** X26: the items of the dictionary [find_duplicates] returns hold each
    key once, and a key stands with a list among the items exactly when the
    dictionary maps the key to that list; an unrecognized mode raises the
    same [ValueError] whether the dictionary is read with or without its
    order. *)
Theorem find_duplicates_items_agree (records : list FileRecord)
    (mode : string) :
  match find_duplicates records mode with
  | Ok groups =>
      ∃ items,
        find_duplicates_items records mode = Ok items ∧
        NoDup items.*1 ∧
        ∀ k v, (k, v) ∈ items ↔ groups !! k = Some v
  | Raise e => find_duplicates_items records mode = Raise e
  end.
Proof.
  destruct (decide (mode = "size" ∨ mode = "name")) as [Hmode | Hmode].
  - destruct (find_duplicates_lookup mode records Hmode)
      as (res & -> & Hres).
    destruct (keys_exist mode records Hmode) as [ks Hks].
    eexists. split; [by apply find_duplicates_items_members |].
    split.
    + eapply sublist_NoDup; [| apply fmap_sublist, sublist_filter].
      rewrite fst_map_pair. apply first_occurrences_NoDup.
    + intros k v. rewrite list_elem_of_filter, elem_of_map_pair, Hres.
      cbn [snd]. rewrite first_occurrences_elem_of. split; [tauto |].
      intros [-> Hlen]. split; [done |]. split; [done |].
      destruct (decide (k ∈ ks)) as [Hin | Hnin]; [done |].
      rewrite (members_nil_not_key mode k records ks Hks Hnin) in Hlen.
      cbn in Hlen. lia.
  - assert (mode ≠ "size" ∧ mode ≠ "name") as [Hsize Hname] by tauto.
    destruct records as [| r records].
    + assert (find_duplicates [] mode = Ok ∅) as ->.
      { unfold find_duplicates, group_loop, bind.
        by rewrite map_filter_empty. }
      exists []. split; [done |]. split; [constructor |].
      intros k v. rewrite elem_of_nil, lookup_empty. split; [tauto | done].
    + rewrite find_duplicates_invalid_mode by done.
      unfold find_duplicates_items. cbn [group_items_loop].
      by rewrite group_key_invalid.
Qed.
